(** * csv2db: the common functions of [functions.py]

    A shallow embedding of [src/python/functions.py] and the properties of
    its functions: [format_list], [get_default_db_port], [find_all_files],
    [open_file] and [get_db_connection].

    Python values are modelled as follows.
    - A [str] is the list of its Unicode code points.
    - An exception is a record of its class name, the names of its base
      classes and its message; [isinstance] decides what an [except]
      clause catches.
    - The operating system (directories, files), the archive codecs and the
      database drivers are records of functions: the code is proved against
      every such world, and evaluated in concrete ones. *)

From Stdlib Require Import Ascii String.
From Stdlib Require Import List NArith ZArith Bool Lia.
From Stdlib Require Import Permutation Sorted.
From Stdlib Require DecimalString.
Import ListNotations.

Set Implicit Arguments.

(** ** Python strings *)

Module PyStr.

Definition codepoint := N.
Definition str := list codepoint.

(** A literal of the source, as a [str]. *)
Definition u (s : string) : str := map N_of_ascii (list_ascii_of_string s).

Definition DQUOTE : codepoint := 34%N.
Definition SPACE : codepoint := 32%N.
Definition UNDERSCORE : codepoint := 95%N.

(** [a == b] on two [str]. *)
Fixpoint eqb (a b : str) : bool :=
  match a, b with
  | [], [] => true
  | x :: a', y :: b' => N.eqb x y && eqb a' b'
  | _, _ => false
  end.

(** [s.startswith(prefix)]. *)
Fixpoint startswith (s prefix : str) : bool :=
  match prefix, s with
  | [], _ => true
  | p :: prefix', c :: s' => N.eqb p c && startswith s' prefix'
  | _ :: _, [] => false
  end.

(** [s.endswith(suffix)]. *)
Definition endswith (s suffix : str) : bool :=
  startswith (rev s) (rev suffix).

(** [str.isspace] of one character: the code points that [str.strip()]
    removes. *)
Definition isspace (c : codepoint) : bool :=
  ((9 <=? c) && (c <=? 13) || (28 <=? c) && (c <=? 32)
   || (c =? 133) || (c =? 160) || (c =? 5760)
   || (8192 <=? c) && (c <=? 8202)
   || (c =? 8232) || (c =? 8233) || (c =? 8239) || (c =? 8287)
   || (c =? 12288))%N.

Fixpoint lstrip (s : str) : str :=
  match s with
  | [] => []
  | c :: s' => if isspace c then lstrip s' else s
  end.

Definition rstrip (s : str) : str := rev (lstrip (rev s)).

(** [s.strip()]. *)
Definition strip (s : str) : str := rstrip (lstrip s).

(** [s.replace(old, new)] for a non-empty [old]: occurrences are found
    from the left and do not overlap; [skip] counts the characters of an
    occurrence that are still to be dropped. *)
Fixpoint replace_from (old new : str) (skip : nat) (s : str) : str :=
  match s with
  | [] => []
  | c :: s' =>
      match skip with
      | S k => replace_from old new k s'
      | O =>
          if startswith s old
          then new ++ replace_from old new (length old - 1) s'
          else c :: replace_from old new 0 s'
      end
  end.

(** [s.replace(old, new)]; an empty [old] matches before every character
    and at the end. *)
Definition replace (s old new : str) : str :=
  match old with
  | [] => new ++ flat_map (fun c => c :: new) s
  | _ :: _ => replace_from old new 0 s
  end.

(** Lexicographic order on code points: [a <= b] on two [str]. *)
Fixpoint leb (a b : str) : bool :=
  match a, b with
  | [], _ => true
  | _ :: _, [] => false
  | x :: a', y :: b' =>
      if N.ltb x y then true
      else if N.eqb x y then leb a' b'
      else false
  end.

Section Upper.

(** The full uppercase mapping of the Unicode database for the code
    points from 128 on; one character can map to several. *)
Variable upper_nonascii : codepoint -> str.

Definition upper_char (c : codepoint) : str :=
  if ((97 <=? c) && (c <=? 122))%N then [(c - 32)%N]
  else if (c <? 128)%N then [c]
  else upper_nonascii c.

(** [s.upper()]. *)
Definition upper (s : str) : str := flat_map upper_char s.

End Upper.

End PyStr.

Import PyStr.

(** ** [class DBType(Enum)] *)

Module DBType.
Definition ORACLE : str := u "oracle".
Definition MYSQL : str := u "mysql".
Definition POSTGRES : str := u "postgres".
Definition DB2 : str := u "db2".
End DBType.

(** ** [format_list] *)

Section FormatList.

Variable upper_nonascii : codepoint -> str.

(** The body of the [for col in input_list] loop: [output] is the list
    built so far. *)
Definition format_list_body (header : bool) (output : list str) (col : str)
  : list str :=
  let val := strip (replace col [DQUOTE] []) in
  let val :=
    if header then upper upper_nonascii (replace val [SPACE] [UNDERSCORE])
    else val in
  output ++ [val].

(** [format_list(input_list, header)]; [None] is Python's [None], both as
    argument and as result. *)
Definition format_list (input_list : option (list str)) (header : bool)
  : option (list str) :=
  match input_list with
  | None => None
  | Some [] => None
  | Some ((_ :: _) as l) => Some (fold_left (format_list_body header) l [])
  end.

End FormatList.

(** ** [get_default_db_port] *)

Definition get_default_db_port (db_type : str) : option str :=
  if eqb db_type DBType.ORACLE then Some (u "1521")
  else if eqb db_type DBType.MYSQL then Some (u "3306")
  else if eqb db_type DBType.POSTGRES then Some (u "5432")
  else if eqb db_type DBType.DB2 then Some (u "50000")
  else None.

(** ** Exceptions and results *)

(** A raised exception: the name of its class, the names of the classes it
    inherits from, and [str(err)]. *)
Record exn := Exn {
  exc_class : string;
  exc_bases : list string;
  exc_str : str
}.

(** [isinstance(e, cls)]: what [except cls] catches. *)
Definition isinstance (e : exn) (cls : string) : bool :=
  String.eqb (exc_class e) cls || existsb (String.eqb cls) (exc_bases e).

(** The outcome of a call: a value, or a raised exception. *)
Inductive result (A : Type) : Type :=
| Ok (a : A)
| Raise (e : exn).

Arguments Ok {A} a.
Arguments Raise {A} e.

(** The exceptions that the code, or the standard library under it, makes. *)
Module Exc.
Definition ValueError (msg : str) : exn :=
  Exn "ValueError" ["Exception"; "BaseException"]%string msg.
Definition ConnectionError (msg : str) : exn :=
  Exn "ConnectionError" ["OSError"; "Exception"; "BaseException"]%string msg.
Definition ModuleNotFoundError (msg : str) : exn :=
  Exn "ModuleNotFoundError"
      ["ImportError"; "Exception"; "BaseException"]%string msg.
Definition IndexError (msg : str) : exn :=
  Exn "IndexError" ["LookupError"; "Exception"; "BaseException"]%string msg.
Definition FileNotFoundError (msg : str) : exn :=
  Exn "FileNotFoundError" ["OSError"; "Exception"; "BaseException"]%string msg.
Definition IsADirectoryError (msg : str) : exn :=
  Exn "IsADirectoryError" ["OSError"; "Exception"; "BaseException"]%string msg.
Definition BadZipFile (msg : str) : exn :=
  Exn "BadZipFile" ["Exception"; "BaseException"]%string msg.
Definition BadGzipFile (msg : str) : exn :=
  Exn "BadGzipFile" ["OSError"; "Exception"; "BaseException"]%string msg.
End Exc.

(** ** The operating system *)

Definition bytes := list N.

(** What the code asks of the file system. *)
Record FileSystem := {
(** [os.path.lexists(path)] *)
lexists : str -> bool;
(** [os.path.isdir(path)] *)
isdir : str -> bool;
(** [os.scandir(path)]: the name of every entry with its [is_dir()], in
    the order of the directory; [None] when it raises [OSError]. *)
scandir : str -> option (list (str * bool));
(** [open(path, 'rb')]: the bytes of the file, or the [OSError]. *)
fs_open : str -> result bytes
}.

(** ** [posixpath], [fnmatch] and [glob] of the standard library *)

Module Glob.

Definition SEP : codepoint := 47%N.
Definition STAR : codepoint := 42%N.
Definition QUESTION : codepoint := 63%N.
Definition LBRACKET : codepoint := 91%N.
Definition RBRACKET : codepoint := 93%N.
Definition BANG : codepoint := 33%N.
Definition HYPHEN : codepoint := 45%N.
Definition DOT : codepoint := 46%N.

Definition nonempty (s : str) : bool :=
  match s with [] => false | _ :: _ => true end.

Fixpoint dropwhile (f : codepoint -> bool) (s : str) : str :=
  match s with
  | [] => []
  | c :: s' => if f c then dropwhile f s' else s
  end.

Fixpoint takewhile (f : codepoint -> bool) (s : str) : str :=
  match s with
  | [] => []
  | c :: s' => if f c then c :: takewhile f s' else []
  end.

Definition is_sep (c : codepoint) : bool := N.eqb c SEP.

(** [posixpath.split(p)]: the tail is what follows the last slash; the
    head loses its trailing slashes unless it is made of slashes only. *)
Definition split (p : str) : str * str :=
  let tail := rev (takewhile (fun c => negb (is_sep c)) (rev p)) in
  let head := firstn (length p - length tail) p in
  let head :=
    if nonempty head && negb (forallb is_sep head)
    then rev (dropwhile is_sep (rev head))
    else head in
  (head, tail).

(** [posixpath.join(a, b)]. *)
Definition join (a b : str) : str :=
  if startswith b [SEP] then b
  else if negb (nonempty a) || endswith a [SEP] then a ++ b
  else a ++ [SEP] ++ b.

(** [glob._join(dirname, basename)]. *)
Definition _join (dirname basename : str) : str :=
  if negb (nonempty dirname) || negb (nonempty basename)
  then (if nonempty dirname then dirname else basename)
  else join dirname basename.

(** [glob.has_magic(s)]: one of [*], [?], [[] occurs in [s]. *)
Definition has_magic (s : str) : bool :=
  existsb (fun c => N.eqb c STAR || N.eqb c QUESTION || N.eqb c LBRACKET) s.

(** [glob._ishidden(path)]. *)
Definition _ishidden (path : str) : bool :=
  match path with
  | c :: _ => N.eqb c DOT
  | [] => false
  end.

(** *** [fnmatch.translate]

    The pattern becomes a list of elements, each matching one character
    but a star, which matches any run of characters. *)

Inductive class_token :=
| Lit (c : codepoint)
| Dash.

Inductive class_item :=
| Single (c : codepoint)
| Range (lo hi : codepoint).

Inductive pat_elem :=
| PStar
| PAny
| PNever
| PClass (negated : bool) (items : list class_item)
| PLit (c : codepoint).

Definition nth_is (s : str) (j : nat) (c : codepoint) : bool :=
  match nth_error s j with
  | Some d => N.eqb d c
  | None => false
  end.

(** The least index from [j] on at which [s] holds [c]. *)
Fixpoint index_from (c : codepoint) (s : str) (j : nat) : option nat :=
  match s with
  | [] => None
  | d :: s' =>
      match j with
      | S j' => option_map S (index_from c s' j')
      | O =>
          if N.eqb d c then Some O
          else option_map S (index_from c s' O)
      end
  end.

(** For [rest], the pattern after a [[]: the index of the bracket that
    closes the class, if any.  A [!] first, and then a []], belong to the
    class. *)
Definition class_end (rest : str) : option nat :=
  let j := O in
  let j := if nth_is rest j BANG then S j else j in
  let j := if nth_is rest j RBRACKET then S j else j in
  index_from RBRACKET rest j.

(** The [chunks] of a class holding a hyphen: it is cut at each hyphen
    found by [pat.find('-', k, j)]; after a hyphen the two characters
    that follow are not searched ([k = k+3]).  [skip] is the number of
    characters before the search resumes, [cur] the chunk being read. *)
Fixpoint chunks_from (skip : nat) (cur : str) (stuff : str) : list str :=
  match stuff with
  | [] => [cur]
  | c :: rest =>
      match skip with
      | S k => chunks_from k (cur ++ [c]) rest
      | O =>
          if N.eqb c HYPHEN then cur :: chunks_from 2 [] rest
          else chunks_from 0 (cur ++ [c]) rest
      end
  end.

(** [chunks[-1] += '-'] when the last chunk is empty. *)
Fixpoint close_chunks (chunks : list str) : list str :=
  match chunks with
  | [] => []
  | [c] => [c]
  | [c; []] => [c ++ [HYPHEN]]
  | c :: rest => c :: close_chunks rest
  end.

(** The loop that removes the empty ranges, from the last chunk to the
    first: a chunk whose last character is above the first character of
    the next one loses it, and is joined to the rest of the next. *)
Fixpoint remove_empty_ranges (chunks : list str) : list str :=
  match chunks with
  | [] => []
  | c :: rest =>
      match remove_empty_ranges rest with
      | [] => [c]
      | d :: rest' =>
          match last (map Some c) None, d with
          | Some x, y :: d' =>
              if N.ltb y x then (removelast c ++ d') :: rest'
              else c :: d :: rest'
          | _, _ => c :: d :: rest'
          end
      end
  end.

(** ['-'.join(chunks)], every character of a chunk escaped. *)
Fixpoint join_chunks (chunks : list str) : list class_token :=
  match chunks with
  | [] => []
  | [c] => map Lit c
  | c :: rest => map Lit c ++ Dash :: join_chunks rest
  end.

(** The tokens of a class: [stuff] after its escapes. *)
Definition class_tokens (stuff : str) : list class_token :=
  if existsb (N.eqb HYPHEN) stuff
  then
    let skip := if nth_is stuff 0 BANG then 2 else 1 in
    join_chunks
      (remove_empty_ranges (close_chunks (chunks_from skip [] stuff)))
  else map Lit stuff.

(** The set that the regular expression [[stuff]] denotes. *)
Fixpoint class_items (toks : list class_token) : list class_item :=
  match toks with
  | [] => []
  | Lit a :: Dash :: Lit b :: rest => Range a b :: class_items rest
  | Lit a :: rest => Single a :: class_items rest
  | Dash :: rest => Single HYPHEN :: class_items rest
  end.

Definition class_elem (stuff : str) : pat_elem :=
  match class_tokens stuff with
  | [] => PNever
  | [Lit c] =>
      if N.eqb c BANG then PAny else PClass false [Single c]
  | Lit c :: rest =>
      if N.eqb c BANG then PClass true (class_items rest)
      else PClass false (class_items (Lit c :: rest))
  | toks => PClass false (class_items toks)
  end.

(** The main loop of [translate]; [skip] is the number of characters
    already read as part of a class. *)
Fixpoint translate_from (skip : nat) (pat : str) : list pat_elem :=
  match pat with
  | [] => []
  | c :: rest =>
      match skip with
      | S k => translate_from k rest
      | O =>
          if N.eqb c STAR then PStar :: translate_from 0 rest
          else if N.eqb c QUESTION then PAny :: translate_from 0 rest
          else if N.eqb c LBRACKET then
            match class_end rest with
            | None => PLit LBRACKET :: translate_from 0 rest
            | Some j =>
                class_elem (firstn j rest) :: translate_from (S j) rest
            end
          else PLit c :: translate_from 0 rest
      end
  end.

(** Consecutive stars are one star. *)
Fixpoint compress_stars (ps : list pat_elem) : list pat_elem :=
  match ps with
  | PStar :: ((PStar :: _) as ps') => compress_stars ps'
  | p :: ps' => p :: compress_stars ps'
  | [] => []
  end.

Definition translate (pat : str) : list pat_elem :=
  compress_stars (translate_from 0 pat).

Definition item_matches (c : codepoint) (it : class_item) : bool :=
  match it with
  | Single d => N.eqb c d
  | Range lo hi => N.leb lo c && N.leb c hi
  end.

Definition elem_matches (p : pat_elem) (c : codepoint) : bool :=
  match p with
  | PStar => true
  | PAny => true
  | PNever => false
  | PClass negated items => xorb negated (existsb (item_matches c) items)
  | PLit d => N.eqb c d
  end.

(** The whole of [s] matches the translated pattern. *)
Fixpoint matches (ps : list pat_elem) : str -> bool :=
  match ps with
  | [] => fun s => negb (nonempty s)
  | PStar :: ps' =>
      fix star (s : str) : bool :=
        matches ps' s
        || match s with
           | [] => false
           | _ :: s' => star s'
           end
  | p :: ps' =>
      fun s =>
        match s with
        | [] => false
        | c :: s' => elem_matches p c && matches ps' s'
        end
  end.

(** [fnmatch.fnmatchcase(name, pat)]. *)
Definition fnmatchcase (name pat : str) : bool := matches (translate pat) name.

(** [fnmatch.filter(names, pat)]. *)
Definition fnmatch_filter (names : list str) (pat : str) : list str :=
  filter (fun name => fnmatchcase name pat) names.

Section WithFileSystem.

Variable fs : FileSystem.

(** [glob._listdir(dirname, None, dironly)]. *)
Definition _listdir (dirname : str) (dironly : bool) : list str :=
  let arg := if nonempty dirname then dirname else u "." in
  match scandir fs arg with
  | None => []
  | Some entries =>
      map fst (filter (fun e => negb dironly || snd e) entries)
  end.

(** [glob._glob1(dirname, pattern, None, dironly)]. *)
Definition _glob1 (dirname pattern : str) (dironly : bool) : list str :=
  let names := _listdir dirname dironly in
  let names :=
    if negb (_ishidden pattern)
    then filter (fun x => negb (_ishidden x)) names
    else names in
  fnmatch_filter names pattern.

(** [glob._glob0(dirname, basename, None, dironly)]. *)
Definition _glob0 (dirname basename : str) (dironly : bool) : list str :=
  if nonempty basename then
    if lexists fs (_join dirname basename) then [basename] else []
  else
    if isdir fs dirname then [basename] else [].

(** [glob._iglob(pathname, '', None, False, dironly)]; each call on a
    directory name takes one unit of [fuel]. *)
Fixpoint _iglob (fuel : nat) (pathname : str) (dironly : bool) : list str :=
  match fuel with
  | O => []
  | S fuel' =>
      let (dirname, basename) := split pathname in
      if negb (has_magic pathname) then
        if nonempty basename then
          if lexists fs pathname then [pathname] else []
        else
          if isdir fs dirname then [pathname] else []
      else if negb (nonempty dirname) then
        _glob1 [] basename dironly
      else
        let dirs :=
          if negb (eqb dirname pathname) && has_magic dirname
          then _iglob fuel' dirname true
          else [dirname] in
        let glob_in_dir := if has_magic basename then _glob1 else _glob0 in
        flat_map
          (fun dirname =>
             map (join dirname) (glob_in_dir dirname basename dironly))
          dirs
  end.

(** [glob.glob(pathname)]. *)
Definition glob (pathname : str) : list str :=
  let it := _iglob (S (length pathname)) pathname false in
  if nonempty pathname then it
  else
    match it with
    | [] :: rest => rest
    | _ => it
    end.

End WithFileSystem.

End Glob.

(** ** [find_all_files] *)

(** [sorted(l)] on a list of [str]. *)
Fixpoint insert_sorted (x : str) (l : list str) : list str :=
  match l with
  | [] => [x]
  | y :: l' => if leb x y then x :: l else y :: insert_sorted x l'
  end.

Definition sorted (l : list str) : list str :=
  fold_right insert_sorted [] l.

Definition find_all_files (fs : FileSystem) (pattern : str) : list str :=
  let pattern :=
    if isdir fs pattern then pattern ++ u "/*.csv*" else pattern in
  sorted (Glob.glob fs pattern).

(** ** A file system given by a tree

    The concrete worlds of the examples: paths are resolved from the root
    of the tree, which is also the current directory. *)

Module TreeFS.

#[warnings="-register-all"]
Inductive node :=
| File (name : str) (data : bytes)
| Dir (name : str) (entries : list node).

Definition node_name (n : node) : str :=
  match n with
  | File name _ => name
  | Dir name _ => name
  end.

(** The components of a path, cut at each slash. *)
Fixpoint components_from (cur : str) (p : str) : list str :=
  match p with
  | [] => [cur]
  | c :: p' =>
      if Glob.is_sep c then cur :: components_from [] p'
      else components_from (cur ++ [c]) p'
  end.

Fixpoint resolve (n : node) (cs : list str) : option node :=
  match cs with
  | [] => Some n
  | c :: cs' =>
      match n with
      | File _ _ => None
      | Dir _ entries =>
          if negb (Glob.nonempty c) || eqb c (u ".") then resolve n cs'
          else
            (fix find (es : list node) : option node :=
               match es with
               | [] => None
               | child :: es' =>
                   if eqb (node_name child) c then resolve child cs'
                   else find es'
               end) entries
      end
  end.

(** The node that a path names; the empty path names nothing. *)
Definition lookup (root : node) (p : str) : option node :=
  match p with
  | [] => None
  | _ :: _ => resolve root (components_from [] p)
  end.

Definition is_dir (n : node) : bool :=
  match n with
  | Dir _ _ => true
  | File _ _ => false
  end.

Definition quoted (p : str) : str := u "'" ++ p ++ u "'".

Definition file_system (root : node) : FileSystem := {|
  lexists p :=
    match lookup root p with
    | Some _ => true
    | None => false
    end;
  isdir p :=
    match lookup root p with
    | Some n => is_dir n
    | None => false
    end;
  scandir p :=
    match lookup root p with
    | Some (Dir _ entries) =>
        Some (map (fun e => (node_name e, is_dir e)) entries)
    | _ => None
    end;
  fs_open p :=
    match lookup root p with
    | Some (File _ data) => Ok data
    | Some (Dir _ _) =>
        Raise (Exc.IsADirectoryError
                 (u "[Errno 21] Is a directory: " ++ quoted p))
    | None =>
        Raise (Exc.FileNotFoundError
                 (u "[Errno 2] No such file or directory: " ++ quoted p))
    end
|}.

End TreeFS.

(** ** The error monad of a call that can raise *)

Definition bind {A B : Type} (r : result A) (k : A -> result B) : result B :=
  match r with
  | Ok a => k a
  | Raise e => Raise e
  end.

Declare Scope result_scope.
Delimit Scope result_scope with result.
Notation "x <- r ;; k" := (bind r (fun x => k))
  (at level 61, r at next level, right associativity) : result_scope.

(** [l[i]] on a list. *)
Definition getitem {A : Type} (l : list A) (i : nat) : result A :=
  match nth_error l i with
  | Some a => Ok a
  | None => Raise (Exc.IndexError (u "list index out of range"))
  end.

(** ** Archives and streams: [zipfile], [gzip] and [io] *)

(** A [zipfile.ZipInfo]: one member of the central directory. *)
Record ZipInfo := {
  filename : str;
  header_offset : N
}.

(** What the code asks of the archive formats and of the text decoder. *)
Record Codecs := {
  (** the central directory of an archive, as [ZipFile.infolist()] gives
      it, or the [BadZipFile] of [ZipFile(...)] *)
  zip_directory : bytes -> result (list ZipInfo);
  (** the check of a member's local header that [ZipFile.open] makes *)
  zip_member_header : bytes -> ZipInfo -> option exn;
  (** a member read to its end *)
  zip_member_data : bytes -> ZipInfo -> result bytes;
  (** a gzip stream read to its end *)
  gunzip : bytes -> result bytes;
  (** bytes decoded in the encoding of the locale *)
  decode : bytes -> result str
}.

(** An open [zipfile.ZipFile]. *)
Record ZipFile := {
  zf_data : bytes;
  zf_infolist : list ZipInfo
}.

(** The binary streams under a text stream. *)
Inductive binary_stream :=
| FileIO (name : str) (data : bytes)
| ZipExtFile (archive : bytes) (member : ZipInfo)
| GzipFile (name : str) (data : bytes).

(** [io.TextIOWrapper(buffer)]. *)
Inductive text_stream :=
| TextIOWrapper (buffer : binary_stream).

Section Streams.

Variable fs : FileSystem.
Variable codecs : Codecs.

Local Open Scope result_scope.

(** [open(file, mode='r')]. *)
Definition builtin_open (file : str) : result text_stream :=
  data <- fs_open fs file ;;
  Ok (TextIOWrapper (FileIO file data)).

(** [gzip.open(file, mode="rt")]: the file is opened; nothing of it is read
    before the first [read]. *)
Definition gzip_open (file : str) : result text_stream :=
  data <- fs_open fs file ;;
  Ok (TextIOWrapper (GzipFile file data)).

(** [zipfile.ZipFile(file, mode="r")]: the file is opened and its central
    directory read. *)
Definition ZipFile_new (file : str) : result ZipFile :=
  data <- fs_open fs file ;;
  infos <- zip_directory codecs data ;;
  Ok {| zf_data := data; zf_infolist := infos |}.

(** [zip_file.open(info, mode="r")]. *)
Definition ZipFile_open (zip_file : ZipFile) (info : ZipInfo)
  : result binary_stream :=
  match zip_member_header codecs (zf_data zip_file) info with
  | Some e => Raise e
  | None => Ok (ZipExtFile (zf_data zip_file) info)
  end.

(** [open_file(file)]. *)
Definition open_file (file : str) : result text_stream :=
  if endswith file (u ".zip") then
    zip_file <- ZipFile_new file ;;
    info <- getitem (zf_infolist zip_file) 0 ;;
    file <- ZipFile_open zip_file info ;;
    Ok (TextIOWrapper file)
  else if endswith file (u ".gz") then
    gzip_open file
  else
    builtin_open file.

(** [stream.read()] on a binary stream: all of its bytes. *)
Definition read_binary (b : binary_stream) : result bytes :=
  match b with
  | FileIO _ data => Ok data
  | ZipExtFile archive member => zip_member_data codecs archive member
  | GzipFile _ data => gunzip codecs data
  end.

(** [stream.read()] on a text stream: all of its text. *)
Definition read_text (t : text_stream) : result str :=
  match t with
  | TextIOWrapper buffer =>
      data <- read_binary buffer ;;
      decode codecs data
  end.

End Streams.

(** ** The database drivers *)

(** The values passed to a driver and returned by it. *)
Inductive value :=
| VStr (s : str)
| VInt (z : Z)
| VObj (id : N).

(** An argument of a call: positional, or with its keyword. *)
Definition argument := (option string * value)%type.

Definition pos (v : value) : argument := (None, v).
Definition kw (name : string) (v : value) : argument := (Some name, v).

(** What the code asks of the interpreter and of the installed drivers. *)
Record Runtime := {
  (** [import m]: [None] when the module is found, else what is raised *)
  import_module : string -> option exn;
  (** a call of a function of a driver module *)
  driver_call : string -> list argument -> result value;
  (** [int(s)] on a [str] *)
  builtin_int : str -> result Z
}.

(** What a run does to the world outside, in order. *)
Inductive event :=
| EvImport (module : string)
| EvCall (callee : string) (args : list argument).

(** A computation that logs its events and can raise. *)
Definition M (A : Type) : Type := list event -> list event * result A.

Definition ret {A : Type} (a : A) : M A := fun log => (log, Ok a).

Definition raise {A : Type} (e : exn) : M A := fun log => (log, Raise e).

Definition mbind {A B : Type} (m : M A) (k : A -> M B) : M B :=
  fun log =>
    match m log with
    | (log', Ok a) => k a log'
    | (log', Raise e) => (log', Raise e)
    end.

Declare Scope m_scope.
Delimit Scope m_scope with M.
Notation "x <- m ;; k" := (mbind m (fun x => k))
  (at level 61, m at next level, right associativity) : m_scope.
Notation "m ;; k" := (mbind m (fun _ => k))
  (at level 61, right associativity) : m_scope.

(** [try: body except cls as err: handler(err)]. *)
Definition try_except {A : Type} (body : M A) (cls : string)
  (handler : exn -> M A) : M A :=
  fun log =>
    match body log with
    | (log', Ok a) => (log', Ok a)
    | (log', Raise e) =>
        if isinstance e cls then handler e log' else (log', Raise e)
    end.

Section Drivers.

Variable rt : Runtime.

Local Open Scope m_scope.

Definition import_ (module : string) : M unit :=
  fun log =>
    (log ++ [EvImport module],
     match import_module rt module with
     | None => Ok tt
     | Some e => Raise e
     end).

Definition call_ (callee : string) (args : list argument) : M value :=
  fun log => (log ++ [EvCall callee args], driver_call rt callee args).

Definition int_ (s : str) : M Z := fun log => (log, builtin_int rt s).

Definition NEWLINE : codepoint := 10%N.

(** The text between two fields of the connection string of psycopg2: the
    end of the line and the indentation of the next one. *)
Definition psycopg2_separator : str :=
  u " " ++ [NEWLINE] ++ repeat SPACE 39.

(** [get_db_connection(db_type, user, password, host, port, db_name)]. *)
Definition get_db_connection
  (db_type user password host port db_name : str) : M value :=
  try_except
    (if eqb db_type DBType.ORACLE then
       import_ "cx_Oracle" ;;
       call_ "cx_Oracle.connect"
         [pos (VStr user); pos (VStr password);
          pos (VStr (host ++ u ":" ++ port ++ u "/" ++ db_name))]
     else if eqb db_type DBType.MYSQL then
       import_ "mysql.connector" ;;
       p <- int_ port ;;
       call_ "mysql.connector.connect"
         [kw "user" (VStr user); kw "password" (VStr password);
          kw "host" (VStr host); kw "port" (VInt p);
          kw "database" (VStr db_name)]
     else if eqb db_type DBType.POSTGRES then
       import_ "psycopg2" ;;
       call_ "psycopg2.connect"
         [pos (VStr (u "user='" ++ user ++ u "'" ++ psycopg2_separator
                     ++ u "password='" ++ password ++ u "'"
                     ++ psycopg2_separator
                     ++ u "host='" ++ host ++ u "'" ++ psycopg2_separator
                     ++ u "port='" ++ port ++ u "'" ++ psycopg2_separator
                     ++ u "dbname='" ++ db_name ++ u "'"))]
     else if eqb db_type DBType.DB2 then
       import_ "ibm_db" ;;
       import_ "ibm_db_dbi" ;;
       conn <- call_ "ibm_db.connect"
                 [pos (VStr (u "UID=" ++ user ++ u ";PWD=" ++ password
                             ++ u ";HOSTNAME=" ++ host ++ u ";PORT=" ++ port
                             ++ u ";DATABASE=" ++ db_name ++ u ";"));
                  pos (VStr []); pos (VStr [])] ;;
       call_ "ibm_db_dbi.Connection" [pos conn]
     else
       raise (Exc.ValueError
                (u "Database type '" ++ db_type ++ u "' is not supported.")))
    "ModuleNotFoundError"
    (fun err =>
       raise (Exc.ConnectionError
                (u "Database driver module is not installed: " ++ exc_str err
                 ++ u ". Please install it first."))).

End Drivers.

(** ** The properties in the words of the specification *)

(** The field without its double-quote characters. *)
Definition strip_quotes (s : str) : str :=
  filter (fun c => negb (N.eqb c DQUOTE)) s.

(** Every space of the field is an underscore. *)
Definition underscore_spaces (s : str) : str :=
  map (fun c => if N.eqb c SPACE then UNDERSCORE else c) s.

Definition all_space (s : str) : Prop := Forall (fun c => isspace c = true) s.

(** Neither the first nor the last character of [t] is whitespace. *)
Definition no_space_at_ends (t : str) : Prop :=
  (forall c t', t = c :: t' -> isspace c = false)
  /\ (forall c t', t = t' ++ [c] -> isspace c = false).

(** [t] is [s] trimmed of its leading and trailing whitespace: what is
    left of [s] once a run of whitespace is taken from each end, with no
    whitespace at either end. *)
Definition trimmed (s t : str) : Prop :=
  exists l r, s = l ++ t ++ r /\ all_space l /\ all_space r
              /\ no_space_at_ends t.

(** A field and the column name made of it. *)
Definition header_field (upper_nonascii : codepoint -> str) (col val : str)
  : Prop :=
  exists t, trimmed (strip_quotes col) t
            /\ val = upper upper_nonascii (underscore_spaces t).

(** A field and the value made of it in a data row. *)
Definition data_field (col val : str) : Prop :=
  trimmed (strip_quotes col) val.

(** The value that one pass of the loop of [format_list] appends. *)
Definition format_field (upper_nonascii : codepoint -> str) (header : bool)
  (col : str) : str :=
  let val := strip (strip_quotes col) in
  if header then upper upper_nonascii (underscore_spaces val) else val.

(** The four supported tags. *)
Definition supported_tags : list str :=
  [DBType.ORACLE; DBType.MYSQL; DBType.POSTGRES; DBType.DB2].

(** The record of the specification's examples:
    [['  "Full Name" ', ' Age ']]. *)
Definition example_record : list str :=
  [u "  " ++ [DQUOTE] ++ u "Full Name" ++ [DQUOTE] ++ u " "; u " Age "].

(** The driver modules that each branch of [get_db_connection] imports. *)
Definition driver_modules (db_type : str) : list string :=
  if eqb db_type DBType.ORACLE then ["cx_Oracle"%string]
  else if eqb db_type DBType.MYSQL then ["mysql.connector"%string]
  else if eqb db_type DBType.POSTGRES then ["psycopg2"%string]
  else if eqb db_type DBType.DB2 then ["ibm_db"%string; "ibm_db_dbi"%string]
  else [].

(** The import of [m] raises [ModuleNotFoundError]. *)
Definition module_missing (rt : Runtime) (m : string) : Prop :=
  exists e, import_module rt m = Some e
            /\ isinstance e "ModuleNotFoundError" = true.

(** The message of the [ValueError] of an unsupported database type. *)
Definition unsupported_message (db_type : str) : str :=
  u "Database type '" ++ db_type ++ u "' is not supported.".

(** The message of the [ConnectionError] made of a [ModuleNotFoundError]. *)
Definition not_installed_message (err : exn) : str :=
  u "Database driver module is not installed: " ++ exc_str err
  ++ u ". Please install it first.".

(** The exception [x] is raised by an import, by a driver or by [int(port)]:
    by what the [try] block calls. *)
Definition raised_inside (rt : Runtime) (port : str) (x : exn) : Prop :=
  (exists m, import_module rt m = Some x)
  \/ (exists callee args, driver_call rt callee args = Raise x)
  \/ builtin_int rt port = Raise x.

(** The events of a log that are calls of a driver. *)
Definition is_call (ev : event) : bool :=
  match ev with
  | EvCall _ _ => true
  | EvImport _ => false
  end.

(** The call that opens the connection, for each backend: the function of
    the driver and the arguments that [get_db_connection] gives it, made
    of the arguments of [get_db_connection] as they are.  [n] is the value
    of [int(port)], which the call of ["mysql"] alone takes. *)
Definition connect_request (db_type user password host port db_name : str)
  (n : Z) : option (string * list argument) :=
  if eqb db_type DBType.ORACLE then
    Some ("cx_Oracle.connect"%string,
          [pos (VStr user); pos (VStr password);
           pos (VStr (host ++ u ":" ++ port ++ u "/" ++ db_name))])
  else if eqb db_type DBType.MYSQL then
    Some ("mysql.connector.connect"%string,
          [kw "user" (VStr user); kw "password" (VStr password);
           kw "host" (VStr host); kw "port" (VInt n);
           kw "database" (VStr db_name)])
  else if eqb db_type DBType.POSTGRES then
    Some ("psycopg2.connect"%string,
          [pos (VStr (u "user='" ++ user ++ u "'" ++ psycopg2_separator
                      ++ u "password='" ++ password ++ u "'"
                      ++ psycopg2_separator
                      ++ u "host='" ++ host ++ u "'" ++ psycopg2_separator
                      ++ u "port='" ++ port ++ u "'" ++ psycopg2_separator
                      ++ u "dbname='" ++ db_name ++ u "'"))])
  else if eqb db_type DBType.DB2 then
    Some ("ibm_db.connect"%string,
          [pos (VStr (u "UID=" ++ user ++ u ";PWD=" ++ password
                      ++ u ";HOSTNAME=" ++ host ++ u ";PORT=" ++ port
                      ++ u ";DATABASE=" ++ db_name ++ u ";"));
           pos (VStr []); pos (VStr [])])
  else None.

(** The [IndexError] of [infolist()[0]] on an archive without members. *)
Definition empty_archive_error : exn :=
  Exc.IndexError (u "list index out of range").

(** The directory part of the pattern [D + "/*.csv*"], as [glob] takes it:
    [D] without its trailing slashes, or [D] and a slash when [D] is made
    of slashes only. *)
Definition glob_dirname (D : str) : str :=
  if forallb Glob.is_sep D then D ++ [Glob.SEP]
  else rev (Glob.dropwhile Glob.is_sep (rev D)).

(** The name matches the glob [*.csv*]: it is not hidden, and the pattern
    matches the whole of it. *)
Definition is_csv_name (name : str) : bool :=
  negb (Glob._ishidden name) && Glob.fnmatchcase name (u "*.csv*").

(** The paths of the entries of the directory [D] whose names match
    [*.csv*], in the order of the directory. *)
Definition csv_paths (fs : FileSystem) (D : str) : list str :=
  map (Glob.join (glob_dirname D))
      (filter is_csv_name (Glob._listdir fs (glob_dirname D) false)).

(** The list is in the order of [<=] on [str]. *)
Definition in_order (l : list str) : Prop :=
  Sorted (fun a b => leb a b = true) l.

(** ** The worlds of the examples *)

Module World.

(** [int(s)] on a string of decimal digits, as the ports of the examples
    are. *)
Fixpoint digits_value (acc : Z) (s : str) : option Z :=
  match s with
  | [] => Some acc
  | c :: s' =>
      if ((48 <=? c) && (c <=? 57))%N
      then digits_value (10 * acc + Z.of_N (c - 48)) s'
      else None
  end.

Definition int_of_digits (s : str) : result Z :=
  match s, digits_value 0 s with
  | _ :: _, Some z => Ok z
  | _, _ =>
      Raise (Exc.ValueError
               (u "invalid literal for int() with base 10: "
                ++ TreeFS.quoted s))
  end.

(** An interpreter with no database driver installed. *)
Definition runtime_without_drivers : Runtime := {|
  import_module m :=
    Some (Exc.ModuleNotFoundError (u "No module named " ++ TreeFS.quoted (u m)));
  driver_call _ _ := Ok (VObj 0);
  builtin_int := int_of_digits
|}.

(** The error of a driver whose backend refuses the user or the password,
    as [cx_Oracle.DatabaseError] is. *)
Definition logon_denied : exn :=
  Exn "DatabaseError" ["Error"; "Exception"; "BaseException"]%string
      (u "ORA-01017: invalid username/password; logon denied").

(** An interpreter with every driver installed, and a backend that refuses
    the credentials. *)
Definition runtime_rejecting : Runtime := {|
  import_module _ := None;
  driver_call _ _ := Raise logon_denied;
  builtin_int := int_of_digits
|}.

(** An interpreter with every driver installed, and a backend that knows
    one account, the user [scott] with the password [tiger]: the driver
    returns a connection for it, and refuses any other. *)
Definition runtime_one_account : Runtime := {|
  import_module _ := None;
  driver_call _ args :=
    match args with
    | (None, VStr user) :: (None, VStr password) :: _ =>
        if eqb user (u "scott") && eqb password (u "tiger")
        then Ok (VObj 1)
        else Raise logon_denied
    | _ => Raise logon_denied
    end;
  builtin_int := int_of_digits
|}.

(** The bytes of the files of the example tree. *)
Definition archive_bytes : bytes := [80; 75; 3; 4; 97; 98]%N.
Definition gzip_bytes : bytes := [31; 139; 8; 0]%N.
Definition text_bytes : bytes := [110; 97; 109; 101; 10]%N.
Definition a_text : bytes := [120; 44; 121; 10]%N.
Definition b_text : bytes := [112; 44; 113; 10]%N.
Definition garbage_bytes : bytes := [0; 1; 2]%N.

Definition a_csv : ZipInfo := {| filename := u "a.csv"; header_offset := 0 |}.
Definition b_csv : ZipInfo := {| filename := u "b.csv"; header_offset := 40 |}.

Definition bytes_eqb (a b : bytes) : bool := eqb a b.

(** Codecs that know the files of the example tree: [archive_bytes] is an
    archive with the members [a.csv] and [b.csv], [gzip_bytes] the
    compressed form of [text_bytes]; any other content is corrupt.  Text is
    decoded as Latin-1. *)
Definition codecs : Codecs := {|
  zip_directory data :=
    if bytes_eqb data archive_bytes then Ok [a_csv; b_csv]
    else Raise (Exc.BadZipFile (u "File is not a zip file"));
  zip_member_header _ _ := None;
  zip_member_data _ info :=
    if N.eqb (header_offset info) 0 then Ok a_text else Ok b_text;
  gunzip data :=
    if bytes_eqb data gzip_bytes then Ok text_bytes
    else Raise (Exc.BadGzipFile (u "Not a gzipped file"));
  decode data := Ok data
|}.

(** The tree of the examples: two directories whose names differ by the
    brackets, and files of each kind. *)
Definition root : TreeFS.node :=
  TreeFS.Dir []
    [TreeFS.Dir (u "data[1]") [TreeFS.File (u "a.csv") text_bytes];
     TreeFS.Dir (u "data1") [TreeFS.File (u "z.csv") text_bytes];
     TreeFS.Dir (u "plain")
       [TreeFS.File (u "b.csv") text_bytes;
        TreeFS.File (u "a.csv.gz") gzip_bytes;
        TreeFS.File (u "notes.txt") text_bytes];
     TreeFS.File (u "people.csv") text_bytes;
     TreeFS.File (u "people.csv.gz") gzip_bytes;
     TreeFS.File (u "people.csv.zip") archive_bytes;
     TreeFS.File (u "broken.csv.gz") garbage_bytes;
     TreeFS.File (u "broken.csv.zip") garbage_bytes].

Definition fs : FileSystem := TreeFS.file_system root.

End World.

(** The file system of [World.root] with the entries of the directory
    [plain] listed in another order. *)
Definition reordered_root : TreeFS.node :=
  TreeFS.Dir []
    [TreeFS.Dir (u "plain")
       [TreeFS.File (u "notes.txt") World.text_bytes;
        TreeFS.File (u "a.csv.gz") World.gzip_bytes;
        TreeFS.File (u "b.csv") World.text_bytes]].

Definition reordered_fs : FileSystem := TreeFS.file_system reordered_root.

(** The upper case of an ASCII character. *)
Definition ascii_upper (c : codepoint) : codepoint :=
  if ((97 <=? c) && (c <=? 122))%N then (c - 32)%N else c.

(** A character that is no space, no double quote and no letter from [a]
    to [z]. *)
Definition column_character (c : codepoint) : Prop :=
  c <> SPACE /\ c <> DQUOTE /\ ~ (97 <= c <= 122)%N.

(** What [get_db_connection] makes of an error raised in its [try] block:
    a [ModuleNotFoundError] becomes a [ConnectionError], any other error
    stays. *)
Definition translated (e : exn) : exn :=
  if isinstance e "ModuleNotFoundError"
  then Exc.ConnectionError (not_installed_message e)
  else e.

(** The error of an import that finds the module and fails to load it, as
    a driver without its client library does. *)
Definition library_not_loaded : exn :=
  Exn "ImportError" ["Exception"; "BaseException"]%string
      (u "libdb2.so.1: cannot open shared object file").

(** An interpreter in which the module [ibm_db] loads and the module
    [ibm_db_dbi] is found but cannot be loaded. *)
Definition runtime_broken_dbi : Runtime := {|
  import_module m :=
    if String.eqb m "ibm_db_dbi" then Some library_not_loaded else None;
  driver_call _ _ := Ok (VObj 1);
  builtin_int := World.int_of_digits
|}.

(** An interpreter with every driver installed, whose backends accept
    every connection: each call returns a new object. *)
Definition runtime_accepting : Runtime := {|
  import_module _ := None;
  driver_call callee _ := Ok (VObj (N.of_nat (String.length callee)));
  builtin_int := World.int_of_digits
|}.

(** The same interpreter, with an [int] that refuses every string. *)
Definition runtime_accepting_without_int : Runtime := {|
  import_module _ := None;
  driver_call callee _ := Ok (VObj (N.of_nat (String.length callee)));
  builtin_int s :=
    Raise (Exc.ValueError
             (u "invalid literal for int() with base 10: "
              ++ TreeFS.quoted s))
|}.

(** ** [config] *)

(** The settings of the module [config] that the functions read. *)
Record Config := {
  verbose : bool;
  debug : bool;
  column_separator : str;
  quote_char : str
}.

(** ** [csv.reader] of the standard library *)

Module Csv.

Definition CR : codepoint := 13%N.
Definition LF : codepoint := 10%N.

Definition is_newline (c : codepoint) : bool := N.eqb c LF || N.eqb c CR.

Definition Error (msg : str) : exn :=
  Exn "Error" ["Exception"; "BaseException"]%string msg.

Definition StopIteration : exn :=
  Exn "StopIteration" ["Exception"; "BaseException"]%string [].

Definition TypeError (msg : str) : exn :=
  Exn "TypeError" ["Exception"; "BaseException"]%string msg.

(** The states of the parser that a reader without escape character goes
    through. *)
Inductive parser_state :=
| START_RECORD
| START_FIELD
| IN_FIELD
| IN_QUOTED_FIELD
| QUOTE_IN_QUOTED_FIELD
| EAT_CRNL.

(** The parser of a reader: its state, the fields of the record read so
    far, and the characters of the field being read. *)
Record parser := {
  state : parser_state;
  fields : list str;
  field : str
}.

Definition parse_reset : parser :=
  {| state := START_RECORD; fields := []; field := [] |}.

Definition set_state (p : parser) (s : parser_state) : parser :=
  {| state := s; fields := fields p; field := field p |}.

(** [parse_save_field]: the field read ends the list of fields. *)
Definition parse_save_field (p : parser) : parser :=
  {| state := state p; fields := fields p ++ [field p]; field := [] |}.

Section Reader.

(** The dialect of the reader: [delimiter] and [quotechar]; the other
    settings are those of the dialect [excel]. *)
Variable delimiter : codepoint.
Variable quotechar : codepoint.

(** [csv.field_size_limit()]. *)
Variable field_limit : N.

Definition field_limit_error : exn :=
  Error (u "field larger than field limit ("
         ++ u (DecimalString.NilZero.string_of_uint (N.to_uint field_limit))
         ++ u ")").

Definition newline_error : exn :=
  Error (u "new-line character seen in unquoted field - do you need to open the file in universal-newline mode?").

(** [parse_add_char]. *)
Definition parse_add_char (p : parser) (c : codepoint) : result parser :=
  if (field_limit <=? N.of_nat (length (field p)))%N
  then Raise field_limit_error
  else Ok {| state := state p; fields := fields p; field := field p ++ [c] |}.

(** The end of a record: at the end of the line ([None]) the parser is
    ready for the next record, at a newline character it first eats what
    is left of the line. *)
Definition end_of_record (p : parser) (c : option codepoint) : parser :=
  set_state (parse_save_field p)
            (match c with None => START_RECORD | Some _ => EAT_CRNL end).

Definition at_line_end (c : option codepoint) : bool :=
  match c with
  | None => true
  | Some ch => is_newline ch
  end.

(** The case [START_FIELD] of [parse_process_char]. *)
Definition start_field (p : parser) (c : option codepoint) : result parser :=
  match c with
  | None => Ok (end_of_record p c)
  | Some ch =>
      if is_newline ch then Ok (end_of_record p c)
      else if N.eqb ch quotechar then Ok (set_state p IN_QUOTED_FIELD)
      else if N.eqb ch delimiter
      then Ok (set_state (parse_save_field p) START_FIELD)
      else
        match parse_add_char p ch with
        | Ok p' => Ok (set_state p' IN_FIELD)
        | Raise e => Raise e
        end
  end.

(** [parse_process_char]: one character of the line, or its end. *)
Definition parse_process_char (p : parser) (c : option codepoint)
  : result parser :=
  match state p with
  | START_RECORD =>
      match c with
      | None => Ok p
      | Some ch =>
          if is_newline ch then Ok (set_state p EAT_CRNL)
          else start_field (set_state p START_FIELD) c
      end
  | START_FIELD => start_field p c
  | IN_FIELD =>
      match c with
      | None => Ok (end_of_record p c)
      | Some ch =>
          if is_newline ch then Ok (end_of_record p c)
          else if N.eqb ch delimiter
          then Ok (set_state (parse_save_field p) START_FIELD)
          else parse_add_char p ch
      end
  | IN_QUOTED_FIELD =>
      match c with
      | None => Ok p
      | Some ch =>
          if N.eqb ch quotechar then Ok (set_state p QUOTE_IN_QUOTED_FIELD)
          else parse_add_char p ch
      end
  | QUOTE_IN_QUOTED_FIELD =>
      match c with
      | None => Ok (end_of_record p c)
      | Some ch =>
          if N.eqb ch quotechar then
            match parse_add_char p ch with
            | Ok p' => Ok (set_state p' IN_QUOTED_FIELD)
            | Raise e => Raise e
            end
          else if N.eqb ch delimiter
          then Ok (set_state (parse_save_field p) START_FIELD)
          else if is_newline ch then Ok (end_of_record p c)
          else
            match parse_add_char p ch with
            | Ok p' => Ok (set_state p' IN_FIELD)
            | Raise e => Raise e
            end
      end
  | EAT_CRNL =>
      match c with
      | None => Ok (set_state p START_RECORD)
      | Some ch => if is_newline ch then Ok p else Raise newline_error
      end
  end.

(** The characters of a line, one after the other. *)
Fixpoint parse_chars (p : parser) (line : str) : result parser :=
  match line with
  | [] => Ok p
  | c :: line' =>
      match parse_process_char p (Some c) with
      | Ok p' => parse_chars p' line'
      | Raise e => Raise e
      end
  end.

(** A line and its end. *)
Definition parse_line (p : parser) (line : str) : result parser :=
  match parse_chars p line with
  | Ok p' => parse_process_char p' None
  | Raise e => Raise e
  end.

Definition in_quoted_field (p : parser) : bool :=
  match state p with
  | IN_QUOTED_FIELD => true
  | _ => false
  end.

Definition at_start_record (p : parser) : bool :=
  match state p with
  | START_RECORD => true
  | _ => false
  end.

(** The loop of [Reader.__next__]: lines are taken from the input until a
    record is complete.  The result is the input that is left, and the
    record or what is raised. *)
Fixpoint read_record (p : parser) (lines : list str)
  : list str * result (list str) :=
  match lines with
  | [] =>
      if Glob.nonempty (field p) || in_quoted_field p
      then ([], Ok (fields (parse_save_field p)))
      else ([], Raise StopIteration)
  | line :: rest =>
      match parse_line p line with
      | Raise e => (rest, Raise e)
      | Ok p' =>
          if at_start_record p' then (rest, Ok (fields p'))
          else read_record p' rest
      end
  end.

(** [reader.__next__()] on the lines that the input still holds. *)
Definition next (lines : list str) : list str * result (list str) :=
  read_record parse_reset lines.

End Reader.

(** A reader: its dialect, and the lines that its input still holds. *)
Record reader := {
  delimiter : codepoint;
  quotechar : codepoint;
  input : list str
}.

Definition must_be_one_character (name : string) : exn :=
  TypeError ([DQUOTE] ++ u name ++ [DQUOTE]
             ++ u " must be a 1-character string").

(** [csv.reader(file, delimiter=..., quotechar=...)]: the dialect is
    checked, and nothing of the input is read. *)
Definition new_reader (file : list str) (delimiter quotechar : str)
  : result reader :=
  match delimiter, quotechar with
  | [d], [q] => Ok {| delimiter := d; quotechar := q; input := file |}
  | [_], _ => Raise (must_be_one_character "quotechar")
  | _, _ => Raise (must_be_one_character "delimiter")
  end.

(** [reader.__next__()]: the reader moves on, and gives a record or
    raises. *)
Definition reader_next (field_limit : N) (r : reader)
  : reader * result (list str) :=
  let (rest, row) :=
    next (delimiter r) (quotechar r) field_limit (input r) in
  ({| delimiter := delimiter r; quotechar := quotechar r; input := rest |},
   row).

End Csv.

(** ** [get_csv_reader] and [read_header] *)

(** [get_csv_reader(file)]; the file object is the list of its lines, as
    its iterator gives them. *)
Definition get_csv_reader (cfg : Config) (file : list str)
  : result Csv.reader :=
  Csv.new_reader file (column_separator cfg) (quote_char cfg).

(** [read_header(reader)]. *)
Definition read_header (upper_nonascii : codepoint -> str) (field_limit : N)
  (reader : Csv.reader) : Csv.reader * result (option (list str)) :=
  let (reader', row) := Csv.reader_next field_limit reader in
  (reader',
   match row with
   | Ok fields => Ok (format_list upper_nonascii (Some fields) true)
   | Raise e => Raise e
   end).
(** [body.split(sep)] for a separator of one character; [cur] is the
    field being read. *)
Fixpoint split_from (sep : codepoint) (cur body : str) : list str :=
  match body with
  | [] => [cur]
  | c :: body' =>
      if N.eqb c sep then cur :: split_from sep [] body'
      else split_from sep (cur ++ [c]) body'
  end.

Definition split_on (sep : codepoint) (body : str) : list str :=
  split_from sep [] body.

(** A field written between quotes, each quote inside it doubled. *)
Definition quoted_field (q : codepoint) (f : str) : str :=
  [q] ++ flat_map (fun c => if N.eqb c q then [q; q] else [c]) f ++ [q].

(** [sep.join(fields)] for a separator of one character. *)
Fixpoint join_fields (sep : codepoint) (fields : list str) : str :=
  match fields with
  | [] => []
  | [f] => f
  | f :: rest => f ++ sep :: join_fields sep rest
  end.

(** The line that holds the fields, each between quotes. *)
Definition quoted_line (sep q : codepoint) (fields : list str) : str :=
  join_fields sep (map (quoted_field q) fields) ++ [Csv.LF].

(** A character of a field written without quotes: no newline character
    and not the quote character. *)
Definition plain_character (q c : codepoint) : Prop :=
  Csv.is_newline c = false /\ c <> q.

(** The parser is where a field starts, or inside a field without
    quotes. *)
Definition between_quotes_free (p : Csv.parser) : Prop :=
  (Csv.state p = Csv.START_FIELD /\ Csv.field p = [])
  \/ Csv.state p = Csv.IN_FIELD.

(** The parser is where a field starts, at the start of a record or after
    a separator. *)
Definition start_of_field (p : Csv.parser) : Prop :=
  (Csv.state p = Csv.START_RECORD \/ Csv.state p = Csv.START_FIELD)
  /\ Csv.field p = [].

(** No field has more characters than the limit on the length of a
    field. *)
Definition within_limit (limit : N) (fields : list str) : Prop :=
  Forall (fun f => (N.of_nat (length f) <= limit)%N) fields.

(** The record of a line without quotes, whose end is cut off: no field
    for a line without characters, else the parts of the line between the
    separators. *)
Definition plain_record (sep : codepoint) (body : str) : list str :=
  match body with
  | [] => []
  | _ :: _ => split_on sep body
  end.

(** The lines of a text, as the iteration over a file gives them: a line
    ends after its line feed, and the last one where the text ends; [cur]
    is the line being read. *)
Fixpoint lines_from (cur text : str) : list str :=
  match text with
  | [] =>
      match cur with
      | [] => []
      | _ :: _ => [cur]
      end
  | c :: text' =>
      if N.eqb c Csv.LF then (cur ++ [c]) :: lines_from [] text'
      else lines_from (cur ++ [c]) text'
  end.

Definition lines_of (text : str) : list str := lines_from [] text.

(** A field as a line holds it: written as it is, or between quotes. *)
Inductive cell :=
| Plain (f : str)
| Quoted (f : str).

Definition cell_value (c : cell) : str :=
  match c with
  | Plain f => f
  | Quoted f => f
  end.

Definition write_cell (q : codepoint) (c : cell) : str :=
  match c with
  | Plain f => f
  | Quoted f => quoted_field q f
  end.

(** A field written as it is holds no quote, no newline character and no
    separator. *)
Definition cell_ok (sep q : codepoint) (c : cell) : Prop :=
  match c with
  | Plain f => Forall (plain_character q) f /\ Forall (fun x => x <> sep) f
  | Quoted _ => True
  end.

(** The start of a line: fields, each one followed by the separator. *)
Definition line_start (sep q : codepoint) (cells : list cell) : str :=
  flat_map (fun c => write_cell q c ++ [sep]) cells.

(** Reading [text] takes the parser from [p] to [p'], in the middle of a
    record: if the lines of the input are those of a text that goes on
    with [text], and the parser is at [p] after the part [cur] of the
    line being read, then the reader goes on to a point of the input
    where the parser is at [p'] and the text that is left is what comes
    after [text]. *)
Definition continues (d q : codepoint) (limit : N) (p : Csv.parser)
  (text : str) (p' : Csv.parser) : Prop :=
  Csv.parse_chars d q limit p text = Ok p'
  /\ forall p0 cur after rest,
      Csv.parse_chars d q limit p0 cur = Ok p ->
      exists p0' cur',
        Csv.parse_chars d q limit p0' cur' = Ok p'
        /\ Csv.read_record d q limit p0 (lines_from cur (text ++ after) ++ rest)
           = Csv.read_record d q limit p0' (lines_from cur' after ++ rest).
(** The settings by default: a comma between the fields, the double quote
    around them. *)
Definition default_config : Config := {|
  verbose := false;
  debug := false;
  column_separator := u ",";
  quote_char := [DQUOTE]
|}.

(** The limit on the length of a field that the module [csv] has when it
    is loaded. *)
Definition default_field_limit : N := 131072%N.

(** The reader of [file] with the separator [d] and the quote [q]. *)
Definition reader_on (d q : codepoint) (file : list str) : Csv.reader :=
  {| Csv.delimiter := d; Csv.quotechar := q; Csv.input := file |}.

(** ** [verbose] and [debug] *)

(** The values that are given to [verbose] and [debug]: a string, a list,
    a dictionary, or another object, with the name of its type and its
    [str()]. *)
#[warnings="-register-all"]
Inductive pyobj :=
| PStr (s : str)
| PList (items : list pyobj)
| PDict (items : list (pyobj * pyobj))
| PObj (type_name : string) (text : str).

Definition type_name_of (x : pyobj) : string :=
  match x with
  | PStr _ => "str"
  | PList _ => "list"
  | PDict _ => "dict"
  | PObj name _ => name
  end.

(** [sep.join(strings)]. *)
Fixpoint join_str (sep : str) (strings : list str) : str :=
  match strings with
  | [] => []
  | [s] => s
  | s :: rest => s ++ sep ++ join_str sep rest
  end.

Definition decimal (n : nat) : str :=
  u (DecimalString.NilZero.string_of_uint (Nat.to_uint n)).

(** The [TypeError] of [str.join] on an item that is no string. *)
Definition join_type_error (index : nat) (x : pyobj) : exn :=
  Csv.TypeError (u "sequence item " ++ decimal index
                 ++ u ": expected str instance, " ++ u (type_name_of x)
                 ++ u " found").

(** The strings of a list of items, or the error of the first item, from
    the index [i] on, that is no string. *)
Fixpoint strings_of (i : nat) (items : list pyobj) : result (list str) :=
  match items with
  | [] => Ok []
  | PStr s :: rest =>
      match strings_of (S i) rest with
      | Ok strings => Ok (s :: strings)
      | Raise e => Raise e
      end
  | x :: _ => Raise (join_type_error i x)
  end.

(** [sep.join(items)] on a list of values. *)
Definition str_join (sep : str) (items : list pyobj) : result str :=
  match strings_of 0 items with
  | Ok strings => Ok (join_str sep strings)
  | Raise e => Raise e
  end.

Section Printing.

(** [repr(x)] *)
Variable repr : pyobj -> str.

(** The standard output, and [sys.stdout.write(text)]: what the output
    becomes, and whether the write raised, as it does when the encoding
    of the output lacks a character of the text or when the output is
    closed. *)
Variable console : Type.
Variable write : str -> console -> console * result unit.

(** [str(x)]: a list and a dictionary show the [repr] of what they
    hold. *)
Definition py_str (x : pyobj) : str :=
  match x with
  | PStr s => s
  | PObj _ text => text
  | PList items => u "[" ++ join_str (u ", ") (map repr items) ++ u "]"
  | PDict items =>
      u "{"
      ++ join_str (u ", ")
           (map (fun kv => repr (fst kv) ++ u ": " ++ repr (snd kv)) items)
      ++ u "}"
  end.

(** [print(x)]: the text is written to the standard output, and then the
    end of the line; an error of a write is raised by [print]. *)
Definition print (x : pyobj) (stdout : console) : console * result unit :=
  match write (py_str x) stdout with
  | (stdout', Ok _) => write [Csv.LF] stdout'
  | (stdout', Raise e) => (stdout', Raise e)
  end.

(** [verbose(output)]. *)
Definition verbose_ (cfg : Config) (output : pyobj) (stdout : console)
  : console * result unit :=
  if verbose cfg then print output stdout else (stdout, Ok tt).

(** ["DEBUG: {0}: {1}".format(now, output)]; [now] is the [str()] of the
    time of the call. *)
Definition debug_message (now : str) (output : pyobj) : pyobj :=
  PStr (u "DEBUG: " ++ now ++ u ": " ++ py_str output).

(** [debug(output)]: the standard output after the call, and whether the
    call raised. *)
Definition debug_ (cfg : Config) (now : str) (output : pyobj)
  (stdout : console) : console * result unit :=
  if debug cfg then
    match output with
    | PList items =>
        match str_join (u ", ") items with
        | Ok text => print (debug_message now (PStr text)) stdout
        | Raise e => (stdout, Raise e)
        end
    | PDict items =>
        let text :=
          join_str (u ", ")
            (map (fun kv => py_str (fst kv) ++ u ": " ++ py_str (snd kv))
                 items) in
        print (debug_message now (PStr text)) stdout
    | _ => print (debug_message now output) stdout
    end
  else (stdout, Ok tt).

End Printing.

(** A standard output that takes every text: the text is added to what
    the output holds. *)
Definition terminal_write (text : str) (stdout : str)
  : str * result unit :=
  (stdout ++ text, Ok tt).

(** The error of a write whose text the encoding of the output cannot
    hold; the message of Python also names the character and where it
    is. *)
Definition encode_error : exn :=
  Exn "UnicodeEncodeError"
      ["UnicodeError"; "ValueError"; "Exception"; "BaseException"]%string
      (u "'ascii' codec can't encode character: ordinal not in range(128)").

(** A standard output in ASCII: a text with another character is refused,
    and nothing of it is written. *)
Definition ascii_write (text : str) (stdout : str) : str * result unit :=
  if forallb (fun c => (c <? 128)%N) text
  then (stdout ++ text, Ok tt)
  else (stdout, Raise encode_error).

(** What [format_list] returns, as a value: [None] or a list of strings. *)
Definition record_value (record : option (list str)) : pyobj :=
  match record with
  | None => PObj "NoneType" (u "None")
  | Some fields => PList (map PStr fields)
  end.

(** The settings by default, with the debug output on. *)
Definition debug_config : Config := {|
  verbose := false;
  debug := true;
  column_separator := u ",";
  quote_char := [DQUOTE]
|}.

(** * Proofs *)

(** ** Strings *)

Lemma eqb_eq (a b : str) : eqb a b = true <-> a = b.
Proof.
  revert b; induction a as [|x a IH]; intros [|y b]; simpl;
    try (split; [discriminate | discriminate]); try tauto.
  rewrite andb_true_iff, N.eqb_eq, IH.
  split; [intros [-> ->]; reflexivity | intros H; inversion H; auto].
Qed.

Lemma eqb_refl (a : str) : eqb a a = true.
Proof. apply eqb_eq; reflexivity. Qed.

Lemma eqb_neq (a b : str) : eqb a b = false <-> a <> b.
Proof.
  rewrite <- eqb_eq. destruct (eqb a b); split; congruence.
Qed.

Lemma startswith_nil (s : str) : startswith s [] = true.
Proof. destruct s; reflexivity. Qed.

Lemma replace_char_delete (c : codepoint) (s : str) :
  replace s [c] [] = filter (fun d => negb (N.eqb d c)) s.
Proof.
  unfold replace. induction s as [|d s IH]; [reflexivity|].
  cbn [replace_from startswith length Nat.sub filter].
  rewrite startswith_nil, andb_true_r, (N.eqb_sym c d).
  destruct (N.eqb d c); cbn [negb app]; rewrite IH; reflexivity.
Qed.

Lemma replace_char_char (a b : codepoint) (s : str) :
  replace s [a] [b] = map (fun d => if N.eqb d a then b else d) s.
Proof.
  unfold replace. induction s as [|d s IH]; [reflexivity|].
  cbn [replace_from startswith length Nat.sub map].
  rewrite startswith_nil, andb_true_r, (N.eqb_sym a d).
  destruct (N.eqb d a); cbn [app]; rewrite IH; reflexivity.
Qed.

Lemma lstrip_spec (s : str) :
  exists l, s = l ++ lstrip s /\ all_space l
            /\ (forall c t', lstrip s = c :: t' -> isspace c = false).
Proof.
  induction s as [|c s (l & Hs & Hl & Hh)]; simpl.
  - exists []. repeat split; [constructor | discriminate].
  - destruct (isspace c) eqn:Hc.
    + exists (c :: l). repeat split; simpl.
      * congruence.
      * constructor; assumption.
      * assumption.
    + exists []. repeat split; [constructor|].
      intros d t' H; inversion H; subst; assumption.
Qed.

Lemma rstrip_spec (s : str) :
  exists r, s = rstrip s ++ r /\ all_space r
            /\ (forall c t', rstrip s = t' ++ [c] -> isspace c = false).
Proof.
  unfold rstrip.
  destruct (lstrip_spec (rev s)) as (l & Hs & Hl & Hh).
  exists (rev l). repeat split.
  - rewrite <- rev_app_distr, <- Hs, rev_involutive. reflexivity.
  - apply Forall_rev. assumption.
  - intros c t' H. apply (Hh c (rev t')).
    rewrite <- (rev_involutive (lstrip (rev s))), H, rev_app_distr.
    reflexivity.
Qed.

Lemma strip_trimmed (s : str) : trimmed s (strip s).
Proof.
  unfold strip.
  destruct (lstrip_spec s) as (l & Hs & Hl & Hh).
  destruct (rstrip_spec (lstrip s)) as (r & Hs' & Hr & Ht).
  exists l, r. repeat split; try assumption.
  - rewrite <- Hs'. assumption.
  - intros c t' H. apply (Hh c (t' ++ r)).
    rewrite Hs' at 1. rewrite H. reflexivity.
Qed.

Lemma lstrip_all_space (l s : str) :
  all_space l -> lstrip (l ++ s) = lstrip s.
Proof.
  induction 1 as [|c l Hc Hl IH]; simpl; [reflexivity|].
  rewrite Hc. assumption.
Qed.

Lemma lstrip_all_space_nil (l : str) : all_space l -> lstrip l = [].
Proof.
  intros H. rewrite <- (app_nil_r l), lstrip_all_space by assumption.
  reflexivity.
Qed.

Lemma all_space_rev (l : str) : all_space l -> all_space (rev l).
Proof. apply Forall_rev. Qed.

(** What [trimmed] describes is what [strip] computes, and nothing else. *)
Lemma trimmed_strip (s t : str) : trimmed s t <-> t = strip s.
Proof.
  split; [|intros ->; apply strip_trimmed].
  intros (l & r & -> & Hl & Hr & Hhead & Hlast).
  unfold strip, rstrip. rewrite lstrip_all_space by assumption.
  destruct t as [|c t'].
  - simpl. rewrite (lstrip_all_space_nil Hr). reflexivity.
  - assert (Hc : isspace c = false) by (apply (Hhead c t'); reflexivity).
    simpl. rewrite Hc. change (c :: t' ++ r) with ((c :: t') ++ r).
    rewrite rev_app_distr, lstrip_all_space by (apply all_space_rev; assumption).
    destruct (exists_last (l := c :: t')) as (t'' & d & Ht); [discriminate|].
    rewrite Ht, rev_app_distr. simpl.
    rewrite (Hlast d t'' Ht). simpl. rewrite rev_involutive. reflexivity.
Qed.

(** On a string of ASCII characters, [upper] does not depend on the table
    for the other characters: the letters [a] to [z] become [A] to [Z] and
    nothing else changes. *)
Lemma upper_ascii (upper_nonascii : codepoint -> str) (s : str) :
  Forall (fun c => (c < 128)%N) s ->
  upper upper_nonascii s
  = map (fun c => if ((97 <=? c) && (c <=? 122))%N then (c - 32)%N else c) s.
Proof.
  induction 1 as [|c s Hc Hs IH]; [reflexivity|].
  unfold upper in *. simpl. rewrite IH. unfold upper_char.
  destruct ((97 <=? c) && (c <=? 122))%N; [reflexivity|].
  apply N.ltb_lt in Hc. rewrite Hc. reflexivity.
Qed.

(** ** [format_list] *)

Section FormatListFacts.

Variable upper_nonascii : codepoint -> str.

Lemma format_list_body_field (header : bool) (output : list str) (col : str) :
  format_list_body upper_nonascii header output col
  = output ++ [format_field upper_nonascii header col].
Proof.
  unfold format_list_body, format_field, strip_quotes, underscore_spaces.
  rewrite replace_char_delete. destruct header; [|reflexivity].
  rewrite replace_char_char. reflexivity.
Qed.

Lemma format_list_loop (header : bool) (l output : list str) :
  fold_left (format_list_body upper_nonascii header) l output
  = output ++ map (format_field upper_nonascii header) l.
Proof.
  revert output; induction l as [|col l IH]; intros output; simpl.
  - rewrite app_nil_r. reflexivity.
  - rewrite IH, format_list_body_field, <- app_assoc. reflexivity.
Qed.

Lemma format_list_cons (header : bool) (col : str) (cols : list str) :
  format_list upper_nonascii (Some (col :: cols)) header
  = Some (map (format_field upper_nonascii header) (col :: cols)).
Proof.
  unfold format_list. rewrite format_list_loop. reflexivity.
Qed.

Lemma format_field_header (col : str) :
  header_field upper_nonascii col (format_field upper_nonascii true col).
Proof.
  exists (strip (strip_quotes col)). split; [apply strip_trimmed | reflexivity].
Qed.

Lemma format_field_data (col : str) : data_field col (format_field upper_nonascii false col).
Proof. apply strip_trimmed. Qed.

Lemma Forall2_map_r {A B : Type} (R : A -> B -> Prop) (f : A -> B)
  (l : list A) :
  (forall a, R a (f a)) -> Forall2 R l (map f l).
Proof.
  intros H; induction l; simpl; constructor; auto.
Qed.

(** C1. For every non-empty list of fields [col :: cols], [format_list]
    with [header=True] returns a list with one column name per field, in
    order: the field without its double quotes, then trimmed of the
    whitespace at both ends, with each space left replaced by an
    underscore, in upper case.  On [['  "Full Name" ', ' Age ']] it returns
    [['FULL_NAME', 'AGE']]. *)
Theorem format_list_header (col : str) (cols : list str) :
  (exists out,
      format_list upper_nonascii (Some (col :: cols)) true = Some out
      /\ Forall2 (header_field upper_nonascii) (col :: cols) out)
  /\ format_list upper_nonascii (Some example_record) true
     = Some [u "FULL_NAME"; u "AGE"].
Proof.
  split.
  - exists (map (format_field upper_nonascii true) (col :: cols)). split.
    + apply format_list_cons.
    + apply Forall2_map_r, format_field_header.
  - reflexivity.
Qed.

(** C7. For every non-empty list of fields [col :: cols], [format_list]
    with [header=False] returns a list with one value per field, in order:
    the field without its double quotes, trimmed of the whitespace at both
    ends, and nothing else changed, so that case and inner spaces are kept.
    On [['  "Full Name" ', ' Age ']] it returns [['Full Name', 'Age']]. *)
Theorem format_list_data (col : str) (cols : list str) :
  (exists out,
      format_list upper_nonascii (Some (col :: cols)) false = Some out
      /\ Forall2 data_field (col :: cols) out)
  /\ format_list upper_nonascii (Some example_record) false
     = Some [u "Full Name"; u "Age"].
Proof.
  split.
  - exists (map (format_field upper_nonascii false) (col :: cols)). split.
    + apply format_list_cons.
    + apply Forall2_map_r, format_field_data.
  - reflexivity.
Qed.

(** C6. On [None] and on the empty list, [format_list] returns [None], with
    [header] true or false; the row of a blank line, which is the empty
    list, never becomes a record of empty strings. *)
Theorem format_list_empty (header : bool) :
  format_list upper_nonascii None header = None
  /\ format_list upper_nonascii (Some []) header = None
  /\ forall n : nat,
      format_list upper_nonascii (Some []) header <> Some (repeat [] n).
Proof.
  repeat split. intros n. simpl. discriminate.
Qed.

End FormatListFacts.

(** A line of whitespace only is not the empty list: it is a row of one
    field, and its record holds one empty string. *)
Example format_list_whitespace_line (upper_nonascii : codepoint -> str) :
  format_list upper_nonascii (Some [u "   "]) false = Some [[]].
Proof. reflexivity. Qed.

(** ** [get_default_db_port] *)

(** C8. The default port is ["1521"] for ["oracle"], ["3306"] for
    ["mysql"], ["5432"] for ["postgres"] and ["50000"] for ["db2"]. *)
Theorem get_default_db_port_table :
  get_default_db_port (u "oracle") = Some (u "1521")
  /\ get_default_db_port (u "mysql") = Some (u "3306")
  /\ get_default_db_port (u "postgres") = Some (u "5432")
  /\ get_default_db_port (u "db2") = Some (u "50000").
Proof. repeat split. Qed.

Lemma unsupported_eqb (db_type : str) :
  ~ In db_type supported_tags ->
  eqb db_type DBType.ORACLE = false /\ eqb db_type DBType.MYSQL = false
  /\ eqb db_type DBType.POSTGRES = false /\ eqb db_type DBType.DB2 = false.
Proof.
  intros H. repeat split; apply eqb_neq; intros ->; apply H; simpl; tauto.
Qed.

(** C10. For every database type that is none of the four supported tags,
    [get_default_db_port] returns [None]: no branch is taken, and the
    function ends without a [return]. *)
Theorem get_default_db_port_unsupported (db_type : str) :
  ~ In db_type supported_tags -> get_default_db_port db_type = None.
Proof.
  intros H. destruct (unsupported_eqb H) as (H1 & H2 & H3 & H4).
  unfold get_default_db_port. rewrite H1, H2, H3, H4. reflexivity.
Qed.

Lemma get_default_db_port_unsupported_witness :
  ~ In (u "sqlite") supported_tags /\ get_default_db_port (u "sqlite") = None.
Proof.
  assert (H : ~ In (u "sqlite") supported_tags).
  { simpl. intros [H|[H|[H|[H|[]]]]]; discriminate H. }
  split; [exact H | exact (get_default_db_port_unsupported H)].
Defined.

(** ** [get_db_connection] *)

Lemma supported_cases (db_type : str) :
  In db_type supported_tags ->
  db_type = DBType.ORACLE \/ db_type = DBType.MYSQL
  \/ db_type = DBType.POSTGRES \/ db_type = DBType.DB2.
Proof.
  simpl. intros [H|[H|[H|[H|[]]]]]; subst; tauto.
Qed.

(** C9. For every database type that is none of the four supported tags,
    [get_db_connection] raises a [ValueError], which is not a
    [ConnectionError] (nor is the [ConnectionError] of a missing driver a
    [ValueError]); the log of events is left as it was: no module is
    imported and no driver is called. *)
Theorem get_db_connection_unsupported (rt : Runtime)
  (db_type user password host port db_name : str) (log : list event) :
  ~ In db_type supported_tags ->
  get_db_connection rt db_type user password host port db_name log
  = (log, Raise (Exc.ValueError (unsupported_message db_type)))
  /\ isinstance (Exc.ValueError (unsupported_message db_type)) "ValueError"
     = true
  /\ isinstance (Exc.ValueError (unsupported_message db_type)) "ConnectionError"
     = false
  /\ forall err,
      isinstance (Exc.ConnectionError (not_installed_message err)) "ValueError"
      = false.
Proof.
  intros H. destruct (unsupported_eqb H) as (H1 & H2 & H3 & H4).
  repeat split.
  unfold get_db_connection, try_except. rewrite H1, H2, H3, H4.
  reflexivity.
Qed.

Lemma get_db_connection_unsupported_witness :
  ~ In (u "sqlite") supported_tags
  /\ get_db_connection World.runtime_rejecting (u "sqlite") (u "scott")
       (u "tiger") (u "localhost") (u "1521") (u "orcl") []
     = ([], Raise (Exc.ValueError (unsupported_message (u "sqlite")))).
Proof.
  assert (H : ~ In (u "sqlite") supported_tags).
  { simpl. intros [H|[H|[H|[H|[]]]]]; discriminate H. }
  split; [exact H|].
  exact (proj1 (get_db_connection_unsupported World.runtime_rejecting
                  (u "scott") (u "tiger") (u "localhost") (u "1521")
                  (u "orcl") [] H)).
Defined.

Ltac run_connection :=
  unfold get_db_connection, try_except, mbind, import_, call_, int_, raise;
  simpl.

Lemma filter_is_call_import (log : list event) (m : string) :
  filter is_call (log ++ [EvImport m]) = filter is_call log.
Proof. rewrite filter_app. simpl. apply app_nil_r. Qed.

Lemma get_db_connection_missing_driver (rt : Runtime)
  (db_type user password host port db_name : str) (log : list event) :
  In db_type supported_tags ->
  (forall m, In m (driver_modules db_type) -> module_missing rt m) ->
  exists log' err,
    get_db_connection rt db_type user password host port db_name log
    = (log', Raise (Exc.ConnectionError (not_installed_message err)))
    /\ isinstance err "ModuleNotFoundError" = true
    /\ filter is_call log' = filter is_call log.
Proof.
  intros Hs Hm.
  destruct (supported_cases Hs) as [-> | [-> | [-> | ->]]].
  - destruct (Hm "cx_Oracle"%string) as (e & He & Hi); [simpl; tauto|].
    exists (log ++ [EvImport "cx_Oracle"]), e. run_connection.
    rewrite He, Hi. auto using filter_is_call_import.
  - destruct (Hm "mysql.connector"%string) as (e & He & Hi); [simpl; tauto|].
    exists (log ++ [EvImport "mysql.connector"]), e. run_connection.
    rewrite He, Hi. auto using filter_is_call_import.
  - destruct (Hm "psycopg2"%string) as (e & He & Hi); [simpl; tauto|].
    exists (log ++ [EvImport "psycopg2"]), e. run_connection.
    rewrite He, Hi. auto using filter_is_call_import.
  - destruct (Hm "ibm_db"%string) as (e & He & Hi); [simpl; tauto|].
    exists (log ++ [EvImport "ibm_db"]), e. run_connection.
    rewrite He, Hi. auto using filter_is_call_import.
Qed.

(** The branches of [connect_request]. *)
Lemma connect_request_cases
  (db_type user password host port db_name : str) (n : Z)
  (callee : string) (args : list argument) :
  connect_request db_type user password host port db_name n
  = Some (callee, args) ->
  db_type = DBType.ORACLE \/ db_type = DBType.MYSQL
  \/ db_type = DBType.POSTGRES \/ db_type = DBType.DB2.
Proof.
  unfold connect_request.
  destruct (eqb db_type DBType.ORACLE) eqn:H1;
    [apply eqb_eq in H1; auto|].
  destruct (eqb db_type DBType.MYSQL) eqn:H2;
    [apply eqb_eq in H2; auto|].
  destruct (eqb db_type DBType.POSTGRES) eqn:H3;
    [apply eqb_eq in H3; auto|].
  destruct (eqb db_type DBType.DB2) eqn:H4;
    [apply eqb_eq in H4; auto|].
  discriminate.
Qed.

(** The error of the call that opens the connection goes through. *)
Lemma get_db_connection_driver_error (rt : Runtime)
  (db_type user password host port db_name : str) (log : list event)
  (e : exn) (n : Z) (callee : string) (args : list argument) :
  (forall m, In m (driver_modules db_type) -> import_module rt m = None) ->
  (db_type = DBType.MYSQL -> builtin_int rt port = Ok n) ->
  connect_request db_type user password host port db_name n
  = Some (callee, args) ->
  driver_call rt callee args = Raise e ->
  isinstance e "ModuleNotFoundError" = false ->
  get_db_connection rt db_type user password host port db_name log
  = (log ++ map EvImport (driver_modules db_type) ++ [EvCall callee args],
     Raise e).
Proof.
  intros Hm Hn Hr Hc Hi.
  destruct (@connect_request_cases _ _ _ _ _ _ _ _ _ Hr) as [-> | [-> | [-> | ->]]];
    injection Hr as <- <-; run_connection.
  - rewrite (Hm "cx_Oracle"%string), Hc, Hi by (simpl; tauto).
    rewrite <- app_assoc. reflexivity.
  - rewrite (Hm "mysql.connector"%string), (Hn eq_refl), Hc, Hi
      by (simpl; tauto).
    rewrite <- app_assoc. reflexivity.
  - rewrite (Hm "psycopg2"%string), Hc, Hi by (simpl; tauto).
    rewrite <- app_assoc. reflexivity.
  - rewrite (Hm "ibm_db"%string), (Hm "ibm_db_dbi"%string), Hc, Hi
      by (simpl; tauto).
    rewrite <- !app_assoc. reflexivity.
Qed.

(** A [ConnectionError] out of [get_db_connection] is the one made of a
    [ModuleNotFoundError], or an error that came from below as it is. *)
Lemma get_db_connection_connection_error_origin (rt : Runtime)
  (db_type user password host port db_name : str) (log log' : list event)
  (e : exn) :
  get_db_connection rt db_type user password host port db_name log
  = (log', Raise e) ->
  isinstance e "ConnectionError" = true ->
  (exists err,
      raised_inside rt port err
      /\ isinstance err "ModuleNotFoundError" = true
      /\ e = Exc.ConnectionError (not_installed_message err))
  \/ raised_inside rt port e.
Proof.
  intros H Hi.
  unfold get_db_connection, try_except, mbind, import_, call_, int_, raise in H.
  repeat match goal with
         | H : context [if ?b then _ else _] |- _ => destruct b eqn:?
         | H : context [match ?x with _ => _ end] |- _ => destruct x eqn:?
         end;
    repeat match goal with
           | H : (_, _) = (_, _) |- _ => inversion H; clear H
           | H : @Raise _ _ = Raise _ |- _ => inversion H; clear H
           | H : Ok _ = Raise _ |- _ => discriminate H
           | H : Raise _ = Ok _ |- _ => discriminate H
           end;
    subst; try discriminate;
    unfold raised_inside; eauto 12.
Qed.

(** C5, as the code has it.  For a supported database type,
    [get_db_connection] raises a [ConnectionError] when the driver modules
    of the backend are missing: the [ModuleNotFoundError] of the import is
    caught and replaced, before any driver is called.  When the driver
    modules import and the call that opens the connection, on the user and
    the password given, raises an error of the driver (the backend rejects
    the connection), that error is no [ModuleNotFoundError] and is not
    replaced: [get_db_connection] raises that same error, and has made
    this one call and no other.  The only [ConnectionError] that
    [get_db_connection] makes is the one that replaces a
    [ModuleNotFoundError]. *)
Theorem get_db_connection_connection_error (rt : Runtime)
  (db_type user password host port db_name : str) (log : list event) :
  In db_type supported_tags ->
  ((forall m, In m (driver_modules db_type) -> module_missing rt m) ->
   exists log' err,
     get_db_connection rt db_type user password host port db_name log
     = (log', Raise (Exc.ConnectionError (not_installed_message err)))
     /\ isinstance err "ModuleNotFoundError" = true
     /\ filter is_call log' = filter is_call log)
  /\ (forall e n callee args,
         (forall m, In m (driver_modules db_type) -> import_module rt m = None) ->
         (db_type = DBType.MYSQL -> builtin_int rt port = Ok n) ->
         connect_request db_type user password host port db_name n
         = Some (callee, args) ->
         driver_call rt callee args = Raise e ->
         isinstance e "ModuleNotFoundError" = false ->
         get_db_connection rt db_type user password host port db_name log
         = (log ++ map EvImport (driver_modules db_type)
                ++ [EvCall callee args],
            Raise e))
  /\ (forall log' e,
         get_db_connection rt db_type user password host port db_name log
         = (log', Raise e) ->
         isinstance e "ConnectionError" = true ->
         (exists err,
             raised_inside rt port err
             /\ isinstance err "ModuleNotFoundError" = true
             /\ e = Exc.ConnectionError (not_installed_message err))
         \/ raised_inside rt port e).
Proof.
  intros Hs. split; [|split].
  - apply get_db_connection_missing_driver; assumption.
  - intros e n callee args. apply get_db_connection_driver_error.
  - intros log' e. apply get_db_connection_connection_error_origin.
Qed.

Lemma oracle_supported : In DBType.ORACLE supported_tags.
Proof. simpl; tauto. Qed.

Lemma get_db_connection_connection_error_witness :
  (exists log' err,
      get_db_connection World.runtime_without_drivers DBType.ORACLE
        (u "scott") (u "tiger") (u "localhost") (u "1521") (u "orcl") []
      = (log', Raise (Exc.ConnectionError (not_installed_message err)))
      /\ isinstance err "ModuleNotFoundError" = true
      /\ filter is_call log' = filter is_call [])
  /\ get_db_connection World.runtime_one_account DBType.ORACLE
       (u "scott") (u "wrong") (u "localhost") (u "1521") (u "orcl") []
     = ([EvImport "cx_Oracle";
         EvCall "cx_Oracle.connect"
           [pos (VStr (u "scott")); pos (VStr (u "wrong"));
            pos (VStr (u "localhost:1521/orcl"))]],
        Raise World.logon_denied).
Proof.
  split.
  - apply (proj1 (get_db_connection_connection_error
                    World.runtime_without_drivers (u "scott") (u "tiger")
                    (u "localhost") (u "1521") (u "orcl") []
                    oracle_supported)).
    intros m _. eexists. split; reflexivity.
  - apply (proj1 (proj2 (get_db_connection_connection_error
                    World.runtime_one_account (u "scott") (u "wrong")
                    (u "localhost") (u "1521") (u "orcl") []
                    oracle_supported)) World.logon_denied 1521%Z);
      reflexivity.
Defined.

(** C5, as stated, fails: with the driver installed and the credentials
    rejected by the backend, what [get_db_connection] raises is the error
    of the driver, which is no [ConnectionError]. *)
Lemma get_db_connection_rejected_credentials :
  ~ (exists log e,
        get_db_connection World.runtime_rejecting DBType.ORACLE
          (u "scott") (u "wrong") (u "localhost") (u "1521") (u "orcl") []
        = (log, Raise e)
        /\ isinstance e "ConnectionError" = true).
Proof.
  intros (log & e & H & Hi).
  vm_compute in H. inversion H; subst. discriminate Hi.
Qed.

(** ** [open_file] *)

Section OpenFileFacts.

Variable fs : FileSystem.
Variable codecs : Codecs.

Lemma open_file_zip (file : str) (data : bytes) (info : ZipInfo)
  (rest : list ZipInfo) :
  endswith file (u ".zip") = true ->
  fs_open fs file = Ok data ->
  zip_directory codecs data = Ok (info :: rest) ->
  zip_member_header codecs data info = None ->
  open_file fs codecs file = Ok (TextIOWrapper (ZipExtFile data info)).
Proof.
  intros Hz Ho Hd Hh.
  unfold open_file, ZipFile_new, ZipFile_open, getitem, bind.
  rewrite Hz, Ho, Hd. simpl. rewrite Hh. reflexivity.
Qed.

Lemma open_file_gz (file : str) (data : bytes) :
  endswith file (u ".zip") = false ->
  endswith file (u ".gz") = true ->
  fs_open fs file = Ok data ->
  open_file fs codecs file = Ok (TextIOWrapper (GzipFile file data)).
Proof.
  intros Hz Hg Ho. unfold open_file, gzip_open, bind.
  rewrite Hz, Hg, Ho. reflexivity.
Qed.

Lemma open_file_plain (file : str) (data : bytes) :
  endswith file (u ".zip") = false ->
  endswith file (u ".gz") = false ->
  fs_open fs file = Ok data ->
  open_file fs codecs file = Ok (TextIOWrapper (FileIO file data)).
Proof.
  intros Hz Hg Ho. unfold open_file, builtin_open, bind.
  rewrite Hz, Hg, Ho. reflexivity.
Qed.

(** C3. For a file that opens, [open_file] looks at the end of the name
    only.  With [.zip], the stream reads the first member of the archive,
    whatever the other members [rest] are; else with [.gz], the stream
    decompresses the file and decodes it to text; else the stream decodes
    the file as it is. *)
Theorem open_file_dispatch (file : str) (data : bytes) :
  fs_open fs file = Ok data ->
  (endswith file (u ".zip") = true ->
   forall info rest,
     zip_directory codecs data = Ok (info :: rest) ->
     zip_member_header codecs data info = None ->
     open_file fs codecs file = Ok (TextIOWrapper (ZipExtFile data info))
     /\ read_text codecs (TextIOWrapper (ZipExtFile data info))
        = bind (zip_member_data codecs data info) (decode codecs))
  /\ (endswith file (u ".zip") = false ->
      endswith file (u ".gz") = true ->
      open_file fs codecs file = Ok (TextIOWrapper (GzipFile file data))
      /\ read_text codecs (TextIOWrapper (GzipFile file data))
         = bind (gunzip codecs data) (decode codecs))
  /\ (endswith file (u ".zip") = false ->
      endswith file (u ".gz") = false ->
      open_file fs codecs file = Ok (TextIOWrapper (FileIO file data))
      /\ read_text codecs (TextIOWrapper (FileIO file data))
         = decode codecs data).
Proof.
  intros Ho. repeat split.
  - eapply open_file_zip; eassumption.
  - apply open_file_gz; assumption.
  - apply open_file_plain; assumption.
Qed.

(** C4, as the code has it.  [open_file] replaces no error.  It fails
    exactly when the file cannot be opened, with the error of [open]
    itself, or, for a name in [.zip], when [zipfile] rejects the archive
    or its first member, with the error of [zipfile], or when the archive
    has no member, with an [IndexError].  A file in [.gz] that opens is
    not read by [open_file]: a corrupt gzip stream raises at the first
    read, not here. *)
Theorem open_file_raises (file : str) (e : exn) :
  (open_file fs codecs file = Raise e <->
   fs_open fs file = Raise e
   \/ (endswith file (u ".zip") = true
       /\ exists data,
           fs_open fs file = Ok data
           /\ (zip_directory codecs data = Raise e
               \/ (zip_directory codecs data = Ok []
                   /\ e = empty_archive_error)
               \/ exists info rest,
                   zip_directory codecs data = Ok (info :: rest)
                   /\ zip_member_header codecs data info = Some e)))
  /\ (forall data,
         endswith file (u ".zip") = false ->
         fs_open fs file = Ok data ->
         exists stream, open_file fs codecs file = Ok stream).
Proof.
  split; [split|].
  - unfold open_file, ZipFile_new, ZipFile_open, gzip_open, builtin_open,
      getitem, bind.
    intros H. destruct (endswith file (u ".zip")) eqn:Hz.
    + destruct (fs_open fs file) as [data|e0] eqn:Ho;
        [|left; injection H as <-; reflexivity].
      right. split; [reflexivity|]. exists data. split; [reflexivity|].
      destruct (zip_directory codecs data) as [[|info rest]|e1] eqn:Hd;
        simpl in H.
      * right; left. split; [reflexivity|]. injection H as <-. reflexivity.
      * right; right. exists info, rest. split; [reflexivity|].
        destruct (zip_member_header codecs data info);
          [injection H as <-; reflexivity | discriminate H].
      * left. injection H as <-. reflexivity.
    + destruct (endswith file (u ".gz")), (fs_open fs file);
        try discriminate H; left; injection H as <-; reflexivity.
  - unfold open_file, ZipFile_new, ZipFile_open, gzip_open, builtin_open,
      getitem, bind.
    intros [H | (Hz & data & Ho & [Hd | [(Hd & ->) | (info & rest & Hd & Hh)]])].
    + rewrite H.
      destruct (endswith file (u ".zip")); [reflexivity|].
      destruct (endswith file (u ".gz")); reflexivity.
    + rewrite Hz, Ho, Hd. reflexivity.
    + rewrite Hz, Ho, Hd. reflexivity.
    + rewrite Hz, Ho, Hd. simpl. rewrite Hh. reflexivity.
  - intros data Hz Ho. unfold open_file, gzip_open, builtin_open, bind.
    rewrite Hz, Ho. destruct (endswith file (u ".gz")); eexists; reflexivity.
Qed.

End OpenFileFacts.

Lemma open_file_dispatch_witness :
  (open_file World.fs World.codecs (u "people.csv.zip")
   = Ok (TextIOWrapper (ZipExtFile World.archive_bytes World.a_csv))
   /\ read_text World.codecs
        (TextIOWrapper (ZipExtFile World.archive_bytes World.a_csv))
      = Ok World.a_text)
  /\ (open_file World.fs World.codecs (u "people.csv.gz")
      = Ok (TextIOWrapper (GzipFile (u "people.csv.gz") World.gzip_bytes))
      /\ read_text World.codecs
           (TextIOWrapper (GzipFile (u "people.csv.gz") World.gzip_bytes))
         = Ok World.text_bytes)
  /\ (open_file World.fs World.codecs (u "people.csv")
      = Ok (TextIOWrapper (FileIO (u "people.csv") World.text_bytes))
      /\ read_text World.codecs
           (TextIOWrapper (FileIO (u "people.csv") World.text_bytes))
         = Ok World.text_bytes).
Proof.
  split; [|split].
  - refine (proj1 (@open_file_dispatch World.fs World.codecs
                     (u "people.csv.zip") World.archive_bytes eq_refl)
              eq_refl World.a_csv [World.b_csv] eq_refl eq_refl).
  - refine (proj1 (proj2 (@open_file_dispatch World.fs World.codecs
                            (u "people.csv.gz") World.gzip_bytes eq_refl))
              eq_refl eq_refl).
  - refine (proj2 (proj2 (@open_file_dispatch World.fs World.codecs
                            (u "people.csv") World.text_bytes eq_refl))
              eq_refl eq_refl).
Defined.

Lemma open_file_raises_witness :
  open_file World.fs World.codecs (u "broken.csv.zip")
  = Raise (Exc.BadZipFile (u "File is not a zip file"))
  /\ exists stream,
      open_file World.fs World.codecs (u "broken.csv.gz") = Ok stream.
Proof.
  split.
  - apply (proj2 (proj1 (open_file_raises World.fs World.codecs
                           (u "broken.csv.zip") _))).
    right. split; [reflexivity|].
    exists World.garbage_bytes. split; [reflexivity|].
    left. reflexivity.
  - apply (proj2 (open_file_raises World.fs World.codecs
                    (u "broken.csv.gz") empty_archive_error)
             World.garbage_bytes); reflexivity.
Defined.

(** C4, as stated, fails.  A path that does not exist makes [open_file]
    raise the [FileNotFoundError] of [open]; a file in [.zip] that is no
    archive makes it raise the [BadZipFile] of [zipfile]; neither is a
    [FileAccessError].  A file in [.gz] that is no gzip stream does not
    make it fail: the stream is returned, and reading it raises. *)
Lemma open_file_no_file_access_error :
  ~ (exists e,
        open_file World.fs World.codecs (u "missing.csv") = Raise e
        /\ isinstance e "FileAccessError" = true)
  /\ ~ (exists e,
           open_file World.fs World.codecs (u "broken.csv.zip") = Raise e
           /\ isinstance e "FileAccessError" = true)
  /\ ~ (exists e,
           open_file World.fs World.codecs (u "broken.csv.gz") = Raise e).
Proof.
  repeat split; intros (e & H); [destruct H as (H & Hi) .. | ];
    vm_compute in H; try discriminate H;
    inversion H; subst; discriminate Hi.
Qed.

(** ** [sorted] *)

Lemma leb_total (a b : str) : leb a b = true \/ leb b a = true.
Proof.
  revert b; induction a as [|x a IH]; intros [|y b]; simpl; auto.
  destruct (N.ltb_spec x y) as [Hxy|Hxy]; [auto|].
  destruct (N.ltb_spec y x) as [Hyx|Hyx]; [auto|].
  assert (x = y) by lia. subst.
  rewrite N.eqb_refl. apply IH.
Qed.

Lemma insert_sorted_perm (x : str) (l : list str) :
  Permutation (insert_sorted x l) (x :: l).
Proof.
  induction l as [|y l IH]; simpl; [reflexivity|].
  destruct (leb x y); [reflexivity|].
  rewrite IH. apply perm_swap.
Qed.

Lemma sorted_perm (l : list str) : Permutation (sorted l) l.
Proof.
  induction l as [|x l IH]; simpl; [reflexivity|].
  rewrite insert_sorted_perm, IH. reflexivity.
Qed.

Lemma insert_sorted_hdrel (x a : str) (l : list str) :
  leb a x = true ->
  HdRel (fun a b => leb a b = true) a l ->
  HdRel (fun a b => leb a b = true) a (insert_sorted x l).
Proof.
  intros Hax Hl. destruct l as [|y l]; simpl.
  - constructor; assumption.
  - destruct (leb x y); constructor; [assumption|].
    inversion Hl; assumption.
Qed.

Lemma insert_sorted_in_order (x : str) (l : list str) :
  in_order l -> in_order (insert_sorted x l).
Proof.
  unfold in_order. induction l as [|y l IH]; intros Hl; simpl.
  - repeat constructor.
  - destruct (leb x y) eqn:Hxy.
    + constructor; [assumption | constructor; assumption].
    + inversion Hl as [|? ? Hs Hh]; subst. constructor.
      * apply IH; assumption.
      * apply insert_sorted_hdrel; [|assumption].
        destruct (leb_total x y); congruence.
Qed.

Lemma sorted_in_order (l : list str) : in_order (sorted l).
Proof.
  induction l as [|x l IH]; simpl.
  - constructor.
  - apply insert_sorted_in_order; assumption.
Qed.

(** ** [fnmatch] on [*.csv*] *)

Lemma matches_star (ps : list Glob.pat_elem) (s : str) :
  Glob.matches (Glob.PStar :: ps) s
  = Glob.matches ps s
    || match s with
       | [] => false
       | _ :: s' => Glob.matches (Glob.PStar :: ps) s'
       end.
Proof. destruct s; reflexivity. Qed.

Lemma matches_star_only (s : str) : Glob.matches [Glob.PStar] s = true.
Proof.
  induction s as [|c s IH]; rewrite matches_star; [reflexivity|].
  rewrite IH. apply orb_true_r.
Qed.

Lemma matches_csv_here (s : str) :
  Glob.matches (Glob.translate (u ".csv*")) s = true
  <-> exists b, s = u ".csv" ++ b.
Proof.
  change (Glob.translate (u ".csv*"))
    with [Glob.PLit 46; Glob.PLit 99; Glob.PLit 115; Glob.PLit 118;
          Glob.PStar]%N.
  split.
  - destruct s as [|c1 [|c2 [|c3 [|c4 b]]]]; try discriminate;
      try (cbn [Glob.matches Glob.elem_matches];
           rewrite ?andb_false_r; discriminate).
    cbn [Glob.matches Glob.elem_matches].
    fold (Glob.matches [Glob.PStar] b).
    rewrite !andb_true_iff, !N.eqb_eq.
    intros (-> & -> & -> & -> & _). exists b. reflexivity.
  - intros (b & ->).
    change (u ".csv" ++ b) with (46 :: 99 :: 115 :: 118 :: b)%N.
    cbn [Glob.matches Glob.elem_matches].
    fold (Glob.matches [Glob.PStar] b).
    rewrite matches_star_only. reflexivity.
Qed.

Lemma fnmatch_csv (name : str) :
  Glob.fnmatchcase name (u "*.csv*") = true
  <-> exists a b, name = a ++ u ".csv" ++ b.
Proof.
  unfold Glob.fnmatchcase.
  change (Glob.translate (u "*.csv*"))
    with (Glob.PStar :: Glob.translate (u ".csv*")).
  induction name as [|c name IH]; rewrite matches_star, orb_true_iff.
  - rewrite matches_csv_here. split.
    + intros [(b & H)|H]; [|discriminate]. exists [], b. assumption.
    + intros ([|c a] & b & H); [|discriminate]. left. exists b. assumption.
  - rewrite matches_csv_here, IH. split.
    + intros [(b & H)|(a & b & H)].
      * exists [], b. assumption.
      * exists (c :: a), b. rewrite H. reflexivity.
    + intros ([|c' a] & b & H).
      * left. exists b. assumption.
      * right. injection H as <- H. exists a, b. assumption.
Qed.

(** ** [glob] on a directory *)

Lemma dropwhile_suffix (f : codepoint -> bool) (s : str) :
  exists l, s = l ++ Glob.dropwhile f s /\ forallb f l = true.
Proof.
  induction s as [|c s (l & Hs & Hl)]; simpl.
  - exists []. split; reflexivity.
  - destruct (f c) eqn:Hc.
    + exists (c :: l). split; simpl; [congruence | rewrite Hc; exact Hl].
    + exists []. split; reflexivity.
Qed.

Lemma has_magic_app (a b : str) :
  Glob.has_magic (a ++ b) = Glob.has_magic a || Glob.has_magic b.
Proof. apply existsb_app. Qed.

Lemma has_magic_rev (s : str) : Glob.has_magic (rev s) = Glob.has_magic s.
Proof.
  induction s as [|c s IH]; [reflexivity|].
  simpl rev. rewrite has_magic_app, IH. simpl.
  rewrite orb_false_r. apply orb_comm.
Qed.

Lemma has_magic_glob_dirname (D : str) :
  Glob.has_magic D = false -> Glob.has_magic (glob_dirname D) = false.
Proof.
  intros H. unfold glob_dirname. destruct (forallb Glob.is_sep D).
  - rewrite has_magic_app, H. reflexivity.
  - rewrite has_magic_rev.
    destruct (dropwhile_suffix Glob.is_sep (rev D)) as (l & Hl & _).
    rewrite <- has_magic_rev, Hl, has_magic_app in H.
    apply orb_false_iff in H. tauto.
Qed.

Lemma nonempty_app_r (a b : str) :
  Glob.nonempty b = true -> Glob.nonempty (a ++ b) = true.
Proof. destruct a, b; simpl; congruence. Qed.

Lemma nonempty_glob_dirname (D : str) : Glob.nonempty (glob_dirname D) = true.
Proof.
  unfold glob_dirname. destruct (forallb Glob.is_sep D) eqn:Hall.
  - apply nonempty_app_r. reflexivity.
  - destruct (dropwhile_suffix Glob.is_sep (rev D)) as (l & Hl & Hf).
    destruct (Glob.dropwhile Glob.is_sep (rev D)) as [|c s] eqn:Hd.
    + rewrite app_nil_r in Hl. subst l.
      rewrite forallb_forall in Hf.
      assert (forallb Glob.is_sep D = true); [|congruence].
      apply forallb_forall. intros x Hx. apply Hf.
      apply in_rev in Hx. exact Hx.
    + simpl. apply nonempty_app_r. reflexivity.
Qed.
Lemma firstn_length_app {A : Type} (a b : list A) (n : nat) :
  n = length a -> firstn n (a ++ b) = a.
Proof.
  intros ->. rewrite firstn_app, Nat.sub_diag, firstn_all. simpl.
  apply app_nil_r.
Qed.

Lemma split_directory_pattern (D : str) :
  Glob.split (D ++ u "/*.csv*") = (glob_dirname D, u "*.csv*").
Proof.
  unfold Glob.split.
  assert (Ht : rev (Glob.takewhile (fun c => negb (Glob.is_sep c))
                      (rev (D ++ u "/*.csv*"))) = u "*.csv*").
  { rewrite rev_app_distr. reflexivity. }
  rewrite Ht.
  assert (Hh : firstn (length (D ++ u "/*.csv*") - length (u "*.csv*"))
                 (D ++ u "/*.csv*") = D ++ [Glob.SEP]).
  { change (D ++ u "/*.csv*") with (D ++ [Glob.SEP] ++ u "*.csv*").
    rewrite app_assoc. apply firstn_length_app.
    rewrite !length_app. simpl. lia. }
  rewrite Hh. f_equal.
  rewrite nonempty_app_r by reflexivity.
  rewrite forallb_app. simpl forallb. rewrite andb_true_r.
  unfold glob_dirname. destruct (forallb Glob.is_sep D); [reflexivity|].
  simpl. rewrite rev_app_distr. reflexivity.
Qed.

Lemma filter_filter {A : Type} (f g : A -> bool) (l : list A) :
  filter f (filter g l) = filter (fun x => g x && f x) l.
Proof.
  induction l as [|x l IH]; simpl; [reflexivity|].
  destruct (g x); simpl; [destruct (f x)|]; rewrite IH; reflexivity.
Qed.

Lemma glob1_csv (fs : FileSystem) (dirname : str) :
  Glob._glob1 fs dirname (u "*.csv*") false
  = filter is_csv_name (Glob._listdir fs dirname false).
Proof.
  unfold Glob._glob1, Glob.fnmatch_filter.
  change (negb (Glob._ishidden (u "*.csv*"))) with true.
  cbv iota. apply filter_filter.
Qed.

Lemma iglob_step (fs : FileSystem) (fuel : nat) (pathname : str)
  (dironly : bool) :
  Glob._iglob fs (S fuel) pathname dironly
  = let (dirname, basename) := Glob.split pathname in
    if negb (Glob.has_magic pathname) then
      if Glob.nonempty basename then
        if lexists fs pathname then [pathname] else []
      else
        if isdir fs dirname then [pathname] else []
    else if negb (Glob.nonempty dirname) then
      Glob._glob1 fs [] basename dironly
    else
      let dirs :=
        if negb (eqb dirname pathname) && Glob.has_magic dirname
        then Glob._iglob fs fuel dirname true
        else [dirname] in
      let glob_in_dir :=
        if Glob.has_magic basename then Glob._glob1 fs else Glob._glob0 fs in
      flat_map
        (fun dirname =>
           map (Glob.join dirname) (glob_in_dir dirname basename dironly))
        dirs.
Proof. reflexivity. Qed.

(** The directory name that [split] gives is the start of the path, and
    is shorter than the path unless it is the path: the recursion of
    [_iglob] ends before its fuel does. *)
Lemma split_dirname_prefix (p : str) :
  exists t, p = fst (Glob.split p) ++ t.
Proof.
  unfold Glob.split.
  set (k := length p - _). simpl fst.
  destruct (Glob.nonempty (firstn k p)
            && negb (forallb Glob.is_sep (firstn k p))).
  - destruct (dropwhile_suffix Glob.is_sep (rev (firstn k p))) as (l & Hl & _).
    exists (rev l ++ skipn k p).
    rewrite app_assoc, <- rev_app_distr, <- Hl, rev_involutive.
    symmetry. apply firstn_skipn.
  - exists (skipn k p). symmetry. apply firstn_skipn.
Qed.

Lemma split_dirname_shorter (p : str) :
  eqb (fst (Glob.split p)) p = false ->
  length (fst (Glob.split p)) < length p.
Proof.
  intros Hne. destruct (split_dirname_prefix p) as ([|c t] & Ht).
  - rewrite app_nil_r in Ht. rewrite <- Ht, eqb_refl in Hne. discriminate.
  - rewrite Ht at 2. rewrite length_app. simpl. lia.
Qed.

Lemma iglob_fuel_irrelevant (fs : FileSystem) (n : nat) :
  forall (m : nat) (p : str) (dironly : bool),
    length p < n -> length p < m ->
    Glob._iglob fs n p dironly = Glob._iglob fs m p dironly.
Proof.
  induction n as [|n IH]; intros [|m] p dironly Hn Hm; try lia.
  rewrite !iglob_step.
  pose proof (split_dirname_shorter p) as Hlt.
  destruct (Glob.split p) as [dirname basename]. simpl fst in Hlt.
  destruct (negb (Glob.has_magic p)); [reflexivity|].
  destruct (negb (Glob.nonempty dirname)); [reflexivity|].
  destruct (eqb dirname p); [reflexivity|]. specialize (Hlt eq_refl).
  cbn [negb andb]. destruct (Glob.has_magic dirname); [|reflexivity].
  rewrite (IH m dirname true) by lia. reflexivity.
Qed.

(** With more fuel than the length of the pattern, [_iglob] does not run
    out of it: the result is that of the call that [glob] makes. *)
Lemma iglob_fuel (fs : FileSystem) (n : nat) (p : str) (dironly : bool) :
  length p < n ->
  Glob._iglob fs n p dironly = Glob._iglob fs (S (length p)) p dironly.
Proof.
  intros Hn. apply iglob_fuel_irrelevant; lia.
Qed.

(** The glob of [D + "/*.csv*"], for [D] without [*], [?] and [[]. *)
Lemma glob_directory_pattern (fs : FileSystem) (D : str) :
  Glob.has_magic D = false ->
  Glob.glob fs (D ++ u "/*.csv*") = csv_paths fs D.
Proof.
  intros Hm. unfold Glob.glob.
  rewrite nonempty_app_r by reflexivity.
  rewrite iglob_step, split_directory_pattern.
  rewrite has_magic_app, orb_comm. change (Glob.has_magic (u "/*.csv*")) with true.
  cbn [orb negb].
  rewrite nonempty_glob_dirname, (has_magic_glob_dirname D Hm), andb_false_r.
  change (Glob.has_magic (u "*.csv*")) with true.
  cbn [negb flat_map]. rewrite app_nil_r, glob1_csv. reflexivity.
Qed.

(** [find_all_files] on a directory whose name holds none of [*], [?] and
    [[]: the paths of the entries of the directory that match [*.csv*],
    all of them and nothing else, in order. *)
Lemma find_all_files_directory (fs : FileSystem) (D : str) :
  isdir fs D = true ->
  Glob.has_magic D = false ->
  find_all_files fs D = sorted (csv_paths fs D)
  /\ in_order (find_all_files fs D)
  /\ Permutation (find_all_files fs D) (csv_paths fs D).
Proof.
  intros Hd Hm.
  assert (H : find_all_files fs D = sorted (csv_paths fs D)).
  { unfold find_all_files. rewrite Hd, glob_directory_pattern by assumption.
    reflexivity. }
  rewrite H. repeat split; [apply sorted_in_order | apply sorted_perm].
Qed.

(** On a directory named without a slash at its end, the directory that is
    listed and joined to the names is the directory itself. *)
Lemma glob_dirname_plain (D : str) (c : codepoint) :
  Glob.is_sep c = false -> glob_dirname (D ++ [c]) = D ++ [c].
Proof.
  intros Hc. unfold glob_dirname.
  rewrite forallb_app. simpl. rewrite Hc, andb_false_r.
  rewrite rev_app_distr. simpl. rewrite Hc. simpl.
  rewrite rev_involutive. reflexivity.
Qed.

(** C2, at a directory whose name holds a bracket.  The directory
    [data[1]] holds the file [a.csv], whose name matches [*.csv*]; the
    pattern ["data[1]/*.csv*"] names the directory [data1] instead, and
    [find_all_files] returns the file of that other directory and not
    [data[1]/a.csv]. *)
Theorem find_all_files_bracket_directory :
  isdir World.fs (u "data[1]") = true
  /\ scandir World.fs (u "data[1]") = Some [(u "a.csv", false)]
  /\ is_csv_name (u "a.csv") = true
  /\ find_all_files World.fs (u "data[1]") = [u "data1/z.csv"]
  /\ ~ In (u "data[1]/a.csv") (find_all_files World.fs (u "data[1]")).
Proof.
  repeat split.
  vm_compute. intros [H|[]]. discriminate H.
Qed.

(** The same function on the directory [plain] of the same tree. *)
Example find_all_files_plain_directory :
  find_all_files World.fs (u "plain")
  = [u "plain/a.csv.gz"; u "plain/b.csv"].
Proof. reflexivity. Qed.

(** * Further properties *)

(** ** [find_all_files] *)

Lemma leb_antisym (a b : str) : leb a b = true -> leb b a = true -> a = b.
Proof.
  revert b; induction a as [|x a IH]; intros [|y b]; simpl;
    try discriminate; [reflexivity|].
  destruct (N.ltb_spec x y) as [Hxy|Hxy], (N.ltb_spec y x) as [Hyx|Hyx];
    try lia.
  - rewrite (proj2 (N.eqb_neq y x)) by lia. discriminate.
  - rewrite (proj2 (N.eqb_neq x y)) by lia. discriminate.
  - assert (x = y) by lia. subst. rewrite N.eqb_refl.
    intros H1 H2. f_equal. apply IH; assumption.
Qed.

Lemma leb_trans (a b c : str) :
  leb a b = true -> leb b c = true -> leb a c = true.
Proof.
  revert b c; induction a as [|x a IH]; intros [|y b] [|z c]; simpl;
    try discriminate; try reflexivity.
  destruct (N.ltb_spec x y) as [Hxy|Hxy].
  - intros _. destruct (N.ltb_spec y z) as [Hyz|Hyz].
    + intros _. rewrite (proj2 (N.ltb_lt x z)) by lia. reflexivity.
    + destruct (N.eqb_spec y z) as [->|Hne]; [|discriminate].
      intros _. rewrite (proj2 (N.ltb_lt x z)) by lia. reflexivity.
  - destruct (N.eqb_spec x y) as [->|Hne]; [|discriminate].
    intros Hab. destruct (N.ltb_spec y z) as [Hyz|Hyz]; [reflexivity|].
    destruct (N.eqb_spec y z) as [->|Hne]; [|discriminate].
    apply IH. assumption.
Qed.

Lemma in_order_strongly (l : list str) :
  in_order l -> StronglySorted (fun a b => leb a b = true) l.
Proof.
  apply Sorted_StronglySorted. intros a b c. apply leb_trans.
Qed.

(** Two lists in order with the same elements are the same list. *)
Lemma in_order_unique (l1 l2 : list str) :
  in_order l1 -> in_order l2 -> Permutation l1 l2 -> l1 = l2.
Proof.
  intros H1 H2. apply in_order_strongly in H1. apply in_order_strongly in H2.
  revert l2 H2; induction H1 as [|x l1 Hs1 IH Hx]; intros l2 H2 Hp.
  - apply Permutation_nil in Hp. congruence.
  - destruct H2 as [|y l2 Hs2 Hy].
    + apply Permutation_sym, Permutation_nil in Hp. discriminate.
    + assert (x = y).
      { assert (Hxin : In x (y :: l2))
          by (apply (Permutation_in _ Hp); left; reflexivity).
        assert (Hyin : In y (x :: l1))
          by (apply (Permutation_in _ (Permutation_sym Hp)); left; reflexivity).
        rewrite Forall_forall in Hx, Hy.
        destruct Hxin as [->|Hxin]; [reflexivity|].
        destruct Hyin as [->|Hyin]; [reflexivity|].
        apply leb_antisym; auto. }
      subst y. f_equal. apply IH; [assumption|].
      apply Permutation_cons_inv with x. assumption.
Qed.

Lemma sorted_permutation (l1 l2 : list str) :
  Permutation l1 l2 -> sorted l1 = sorted l2.
Proof.
  intros Hp. apply in_order_unique; try apply sorted_in_order.
  rewrite !sorted_perm. assumption.
Qed.

Lemma filter_permutation {A : Type} (f : A -> bool) (l1 l2 : list A) :
  Permutation l1 l2 -> Permutation (filter f l1) (filter f l2).
Proof.
  induction 1 as [|x l1 l2 Hp IH|x y l|l1 l2 l3 Hp1 IH1 Hp2 IH2]; simpl.
  - constructor.
  - destruct (f x); [constructor|]; assumption.
  - destruct (f x), (f y); try reflexivity. apply perm_swap.
  - etransitivity; eassumption.
Qed.

Lemma listdir_glob_dirname (fs : FileSystem) (D : str)
  (entries : list (str * bool)) :
  scandir fs (glob_dirname D) = Some entries ->
  Glob._listdir fs (glob_dirname D) false = map fst entries.
Proof.
  intros H. unfold Glob._listdir.
  rewrite nonempty_glob_dirname, H. cbn [negb orb]. clear H.
  induction entries as [|e l IH]; [reflexivity|].
  cbn [filter map]. rewrite IH. reflexivity.
Qed.

(** X1. For a directory [D] whose name holds none of [*], [?] and [[],
    [find_all_files] returns, in order, the paths of the entries of [D]
    whose names do not start with a dot and hold [.csv]: each one joined
    to the name of the directory, all of them and no other path. *)
Theorem find_all_files_ordinary_directory (fs : FileSystem) (D : str) :
  isdir fs D = true ->
  Glob.has_magic D = false ->
  in_order (find_all_files fs D)
  /\ Permutation (find_all_files fs D) (csv_paths fs D)
  /\ forall path,
      In path (find_all_files fs D) <->
      exists name,
        In name (Glob._listdir fs (glob_dirname D) false)
        /\ Glob._ishidden name = false
        /\ (exists a b, name = a ++ u ".csv" ++ b)
        /\ path = Glob.join (glob_dirname D) name.
Proof.
  intros Hd Hm.
  destruct (find_all_files_directory fs D Hd Hm) as (_ & Ho & Hp).
  repeat split; try assumption.
  - intros Hin. apply (Permutation_in _ Hp) in Hin.
    unfold csv_paths in Hin. apply in_map_iff in Hin.
    destruct Hin as (name & <- & Hin). apply filter_In in Hin.
    destruct Hin as (Hin & Hcsv). unfold is_csv_name in Hcsv.
    apply andb_true_iff in Hcsv. destruct Hcsv as (Hh & Hf).
    exists name. repeat split; try assumption.
    + apply negb_true_iff. assumption.
    + apply fnmatch_csv. assumption.
  - intros (name & Hin & Hh & Hc & ->).
    apply (Permutation_in _ (Permutation_sym Hp)).
    unfold csv_paths. apply in_map, filter_In. split; [assumption|].
    unfold is_csv_name. rewrite Hh. apply fnmatch_csv in Hc.
    rewrite Hc. reflexivity.
Qed.

Lemma find_all_files_ordinary_directory_witness :
  in_order (find_all_files World.fs (u "plain"))
  /\ Permutation (find_all_files World.fs (u "plain"))
       (csv_paths World.fs (u "plain")).
Proof.
  pose proof (@find_all_files_ordinary_directory World.fs (u "plain")
                eq_refl eq_refl) as H.
  split; [exact (proj1 H) | exact (proj1 (proj2 H))].
Defined.

(** X2. For every pattern, what [find_all_files] returns is in order, and
    holds the paths that [glob] yields for the pattern, or for the pattern
    of the directory, each as many times as [glob] yields it. *)
Theorem find_all_files_sorted (fs : FileSystem) (pattern : str) :
  in_order (find_all_files fs pattern)
  /\ Permutation (find_all_files fs pattern)
       (Glob.glob fs (if isdir fs pattern then pattern ++ u "/*.csv*"
                      else pattern)).
Proof.
  unfold find_all_files. split; [apply sorted_in_order | apply sorted_perm].
Qed.

Lemma split_basename_nonempty (q : str) (c : codepoint) :
  Glob.is_sep c = false ->
  Glob.nonempty (snd (Glob.split (q ++ [c]))) = true.
Proof.
  intros Hc. unfold Glob.split. simpl snd.
  rewrite rev_app_distr. simpl. rewrite Hc. simpl.
  apply nonempty_app_r. reflexivity.
Qed.

(** X3. For a path that holds none of [*], [?] and [[], does not end in a
    slash and is no directory, [find_all_files] returns the path alone
    when it exists, and the empty list when it does not: a pattern that
    matches nothing is no error. *)
Theorem find_all_files_literal_path (fs : FileSystem) (q : str)
  (c : codepoint) :
  Glob.is_sep c = false ->
  Glob.has_magic (q ++ [c]) = false ->
  isdir fs (q ++ [c]) = false ->
  find_all_files fs (q ++ [c])
  = if lexists fs (q ++ [c]) then [q ++ [c]] else [].
Proof.
  intros Hc Hm Hd. unfold find_all_files, Glob.glob. rewrite Hd.
  rewrite nonempty_app_r by reflexivity.
  rewrite iglob_step.
  pose proof (@split_basename_nonempty q c Hc) as Hb.
  destruct (Glob.split (q ++ [c])) as [dirname basename]. simpl in Hb.
  rewrite Hm, Hb. cbn [negb].
  destruct (lexists fs (q ++ [c])); reflexivity.
Qed.

Lemma find_all_files_literal_path_witness :
  find_all_files World.fs (u "people.csv") = [u "people.csv"]
  /\ find_all_files World.fs (u "absent.csv") = [].
Proof.
  split.
  - exact (@find_all_files_literal_path World.fs (u "people.cs") 118%N
             eq_refl eq_refl eq_refl).
  - exact (@find_all_files_literal_path World.fs (u "absent.cs") 118%N
             eq_refl eq_refl eq_refl).
Defined.

(** X4. On a directory whose name holds none of [*], [?] and [[], what
    [find_all_files] returns does not depend on the order in which the
    operating system lists the directory: two file systems that list the
    same entries in different orders give the same list. *)
Theorem find_all_files_listing_order (fs1 fs2 : FileSystem) (D : str)
  (l1 l2 : list (str * bool)) :
  isdir fs1 D = true ->
  isdir fs2 D = true ->
  Glob.has_magic D = false ->
  scandir fs1 (glob_dirname D) = Some l1 ->
  scandir fs2 (glob_dirname D) = Some l2 ->
  Permutation l1 l2 ->
  find_all_files fs1 D = find_all_files fs2 D.
Proof.
  intros Hd1 Hd2 Hm Hs1 Hs2 Hp.
  destruct (find_all_files_directory fs1 D Hd1 Hm) as (-> & _).
  destruct (find_all_files_directory fs2 D Hd2 Hm) as (-> & _).
  apply sorted_permutation. unfold csv_paths.
  rewrite (listdir_glob_dirname fs1 D Hs1), (listdir_glob_dirname fs2 D Hs2).
  apply Permutation_map, filter_permutation, Permutation_map. assumption.
Qed.

Lemma find_all_files_listing_order_witness :
  find_all_files World.fs (u "plain") = find_all_files reordered_fs (u "plain").
Proof.
  apply (@find_all_files_listing_order World.fs reordered_fs (u "plain")
           [(u "b.csv", false); (u "a.csv.gz", false); (u "notes.txt", false)]
           [(u "notes.txt", false); (u "a.csv.gz", false); (u "b.csv", false)]);
    try reflexivity.
  apply perm_trans
    with [(u "a.csv.gz", false); (u "b.csv", false); (u "notes.txt", false)].
  - apply perm_swap.
  - apply perm_trans
      with [(u "a.csv.gz", false); (u "notes.txt", false); (u "b.csv", false)].
    + apply perm_skip, perm_swap.
    + apply perm_swap.
Defined.

(** ** [format_list] *)

Lemma strip_segment (s : str) :
  exists l r, s = l ++ strip s ++ r.
Proof.
  destruct (strip_trimmed s) as (l & r & H & _). exists l, r. assumption.
Qed.

Lemma strip_Forall (P : codepoint -> Prop) (s : str) :
  Forall P s -> Forall P (strip s).
Proof.
  intros H. destruct (strip_segment s) as (l & r & Hs).
  rewrite Hs in H. apply Forall_app in H. destruct H as (_ & H).
  apply Forall_app in H. tauto.
Qed.

Lemma strip_idempotent (s : str) : strip (strip s) = strip s.
Proof.
  symmetry. apply trimmed_strip.
  exists [], []. rewrite app_nil_r. repeat split; try constructor.
  - destruct (strip_trimmed s) as (_ & _ & _ & _ & _ & H & _). exact H.
  - destruct (strip_trimmed s) as (_ & _ & _ & _ & _ & _ & H). exact H.
Qed.

Lemma strip_quotes_no_quote (s : str) :
  Forall (fun c => c <> DQUOTE) (strip_quotes s).
Proof.
  apply Forall_forall. intros c Hc. apply filter_In in Hc.
  destruct Hc as (_ & Hc). apply negb_true_iff, N.eqb_neq in Hc. assumption.
Qed.

Lemma strip_quotes_fixed (s : str) :
  Forall (fun c => c <> DQUOTE) s -> strip_quotes s = s.
Proof.
  induction 1 as [|c s Hc Hs IH]; [reflexivity|].
  unfold strip_quotes in *. cbn [filter].
  rewrite (proj2 (N.eqb_neq c DQUOTE) Hc). cbn [negb].
  rewrite IH. reflexivity.
Qed.

Lemma format_field_data_no_quote (upper_nonascii : codepoint -> str)
  (col : str) :
  Forall (fun c => c <> DQUOTE) (format_field upper_nonascii false col).
Proof. apply strip_Forall, strip_quotes_no_quote. Qed.

Lemma format_field_data_idempotent (upper_nonascii : codepoint -> str)
  (col : str) :
  format_field upper_nonascii false (format_field upper_nonascii false col)
  = format_field upper_nonascii false col.
Proof.
  unfold format_field at 1.
  rewrite strip_quotes_fixed by apply format_field_data_no_quote.
  apply strip_idempotent.
Qed.

(** X5. A record that [format_list] has made with [header=False] is left
    as it is when [format_list] is applied to it again. *)
Theorem format_list_data_idempotent (upper_nonascii : codepoint -> str)
  (col : str) (cols out : list str) :
  format_list upper_nonascii (Some (col :: cols)) false = Some out ->
  format_list upper_nonascii (Some out) false = Some out.
Proof.
  rewrite format_list_cons. intros H. injection H as <-.
  assert (Hm : forall l,
             map (format_field upper_nonascii false)
               (map (format_field upper_nonascii false) l)
             = map (format_field upper_nonascii false) l).
  { intros l. rewrite map_map. apply map_ext. intros c.
    apply format_field_data_idempotent. }
  cbn [map]. rewrite format_list_cons. apply f_equal.
  exact (Hm (col :: cols)).
Qed.

Lemma format_list_data_idempotent_witness :
  format_list (fun c => [c]) (Some [u "Full Name"; u "Age"]) false
  = Some [u "Full Name"; u "Age"].
Proof.
  apply (@format_list_data_idempotent (fun c => [c])
           (hd [] example_record) (tl example_record)).
  reflexivity.
Defined.

(** X6. With [header=False], [format_list] returns one value for each
    field of a non-empty list, and no value holds a double quote, at its
    ends or inside, or has whitespace as its first or last character. *)
Theorem format_list_data_values (upper_nonascii : codepoint -> str)
  (col : str) (cols : list str) :
  exists out,
    format_list upper_nonascii (Some (col :: cols)) false = Some out
    /\ length out = S (length cols)
    /\ Forall (fun val => ~ In DQUOTE val /\ no_space_at_ends val) out.
Proof.
  exists (map (format_field upper_nonascii false) (col :: cols)).
  split; [apply format_list_cons|]. split.
  - rewrite length_map. reflexivity.
  - apply Forall_forall. intros val Hv. apply in_map_iff in Hv.
    destruct Hv as (c & <- & _). split.
    + intros Hin.
      pose proof (@format_field_data_no_quote upper_nonascii c) as H.
      rewrite Forall_forall in H. apply (H _ Hin). reflexivity.
    + destruct (@format_field_data upper_nonascii c)
        as (_ & _ & _ & _ & _ & H).
      exact H.
Qed.

Lemma ascii_upper_column (c : codepoint) :
  c <> SPACE -> c <> DQUOTE -> column_character (ascii_upper c).
Proof.
  unfold column_character, ascii_upper, SPACE, DQUOTE. intros H1 H2.
  destruct ((97 <=? c) && (c <=? 122))%N eqn:Hc.
  - apply andb_true_iff in Hc. destruct Hc as (Ha & Hz).
    apply N.leb_le in Ha, Hz. lia.
  - apply andb_false_iff in Hc. repeat split; try assumption.
    intros (Ha & Hz). destruct Hc as [Hc|Hc]; apply N.leb_gt in Hc; lia.
Qed.

(** X7. With [header=True], on a non-empty list of fields of ASCII
    characters, [format_list] returns one column name for each field, and
    no name holds a space, a double quote or a letter from [a] to [z]. *)
Theorem format_list_header_names (upper_nonascii : codepoint -> str)
  (col : str) (cols : list str) :
  Forall (Forall (fun c => (c < 128)%N)) (col :: cols) ->
  exists out,
    format_list upper_nonascii (Some (col :: cols)) true = Some out
    /\ length out = S (length cols)
    /\ Forall (Forall column_character) out.
Proof.
  intros Hascii.
  exists (map (format_field upper_nonascii true) (col :: cols)).
  split; [apply format_list_cons|]. split; [rewrite length_map; reflexivity|].
  apply Forall_forall. intros val Hv. apply in_map_iff in Hv.
  destruct Hv as (c & <- & Hin).
  rewrite Forall_forall in Hascii. specialize (Hascii c Hin).
  unfold format_field.
  assert (Ha : Forall (fun c => (c < 128)%N)
                 (underscore_spaces (strip (strip_quotes c)))).
  { unfold underscore_spaces. apply Forall_map.
    apply strip_Forall. unfold strip_quotes.
    apply Forall_forall. intros x Hx. apply filter_In in Hx.
    destruct Hx as (Hx & _). rewrite Forall_forall in Hascii.
    specialize (Hascii x Hx). cbv beta.
    destruct (N.eqb x SPACE); [reflexivity | assumption]. }
  rewrite (upper_ascii upper_nonascii Ha).
  unfold underscore_spaces. rewrite map_map. apply Forall_map.
  pose proof (strip_Forall (strip_quotes_no_quote c)) as Hq.
  apply Forall_forall. intros x Hx. rewrite Forall_forall in Hq.
  specialize (Hq x Hx). cbv beta.
  destruct (N.eqb_spec x SPACE) as [->|Hs].
  - apply (@ascii_upper_column UNDERSCORE); discriminate.
  - apply (@ascii_upper_column x); assumption.
Qed.

Lemma format_list_header_names_witness :
  exists out,
    format_list (fun c => [c]) (Some example_record) true = Some out
    /\ length out = 2
    /\ Forall (Forall column_character) out.
Proof.
  apply (@format_list_header_names (fun c => [c])
           (hd [] example_record) (tl example_record)).
  repeat constructor.
Defined.

(** ** [get_db_connection] *)

Lemma driver_modules_cases (db_type : str) (m : string) :
  In m (driver_modules db_type) ->
  (db_type = DBType.ORACLE /\ m = "cx_Oracle"%string)
  \/ (db_type = DBType.MYSQL /\ m = "mysql.connector"%string)
  \/ (db_type = DBType.POSTGRES /\ m = "psycopg2"%string)
  \/ (db_type = DBType.DB2 /\ (m = "ibm_db"%string \/ m = "ibm_db_dbi"%string)).
Proof.
  unfold driver_modules.
  destruct (eqb db_type DBType.ORACLE) eqn:H1;
    [apply eqb_eq in H1; simpl; intuition auto|].
  destruct (eqb db_type DBType.MYSQL) eqn:H2;
    [apply eqb_eq in H2; simpl; intuition auto|].
  destruct (eqb db_type DBType.POSTGRES) eqn:H3;
    [apply eqb_eq in H3; simpl; intuition auto|].
  destruct (eqb db_type DBType.DB2) eqn:H4;
    [apply eqb_eq in H4; simpl; intuition auto|].
  intros [].
Qed.

(** X8. When the import of a driver module of the backend fails, whatever
    the error, [get_db_connection] stops there: no driver is called.  It
    raises a [ConnectionError] if the error is a [ModuleNotFoundError],
    and the error of the import itself if it is another one. *)
Theorem get_db_connection_import_error (rt : Runtime)
  (db_type user password host port db_name : str) (log : list event)
  (m : string) (e : exn) :
  In m (driver_modules db_type) ->
  import_module rt m = Some e ->
  (forall m', In m' (driver_modules db_type) -> m' <> m ->
              import_module rt m' = None) ->
  exists log',
    get_db_connection rt db_type user password host port db_name log
    = (log', Raise (translated e))
    /\ filter is_call log' = filter is_call log.
Proof.
  intros Hin He Hother. unfold translated.
  destruct (driver_modules_cases _ _ Hin)
    as [(-> & ->) | [(-> & ->) | [(-> & ->) | (-> & [-> | ->])]]];
    run_connection.
  - rewrite He. destruct (isinstance e "ModuleNotFoundError");
      eexists; (split; [reflexivity | apply filter_is_call_import]).
  - rewrite He. destruct (isinstance e "ModuleNotFoundError");
      eexists; (split; [reflexivity | apply filter_is_call_import]).
  - rewrite He. destruct (isinstance e "ModuleNotFoundError");
      eexists; (split; [reflexivity | apply filter_is_call_import]).
  - rewrite He. destruct (isinstance e "ModuleNotFoundError");
      eexists; (split; [reflexivity | apply filter_is_call_import]).
  - rewrite (Hother "ibm_db"%string), He by (simpl; auto; discriminate).
    destruct (isinstance e "ModuleNotFoundError");
      eexists; (split; [reflexivity
                       | rewrite !filter_is_call_import; reflexivity]).
Qed.

Lemma get_db_connection_import_error_witness :
  exists log',
    get_db_connection runtime_broken_dbi DBType.DB2 (u "db2inst1")
      (u "secret") (u "localhost") (u "50000") (u "sample") []
    = (log', Raise library_not_loaded)
    /\ filter is_call log' = [].
Proof.
  apply (@get_db_connection_import_error runtime_broken_dbi DBType.DB2
           (u "db2inst1") (u "secret") (u "localhost") (u "50000")
           (u "sample") [] "ibm_db_dbi" library_not_loaded).
  - simpl. auto.
  - reflexivity.
  - intros m' [<-|[<-|[]]] Hne; [reflexivity | contradiction Hne; reflexivity].
Defined.

(** X9. For ["mysql"], the port is converted by [int] after the import and
    before the call of the driver: when [int(port)] raises, the driver is
    imported, it is not called, and [get_db_connection] raises the error
    of [int]. *)
Theorem get_db_connection_mysql_port (rt : Runtime)
  (user password host port db_name : str) (log : list event) (e : exn) :
  import_module rt "mysql.connector" = None ->
  builtin_int rt port = Raise e ->
  isinstance e "ModuleNotFoundError" = false ->
  get_db_connection rt DBType.MYSQL user password host port db_name log
  = (log ++ [EvImport "mysql.connector"], Raise e).
Proof.
  intros Hi Hp He. run_connection. rewrite Hi, Hp, He. reflexivity.
Qed.

Lemma get_db_connection_mysql_port_witness :
  get_db_connection runtime_accepting DBType.MYSQL (u "root") (u "secret")
    (u "localhost") (u "33o6") (u "test") []
  = ([EvImport "mysql.connector"],
     Raise (Exc.ValueError
              (u "invalid literal for int() with base 10: '33o6'"))).
Proof.
  apply (@get_db_connection_mysql_port runtime_accepting (u "root")
           (u "secret") (u "localhost") (u "33o6") (u "test") []);
    reflexivity.
Defined.

(** X10. For a database type other than ["mysql"], the port is not
    converted: it goes to the driver as the text that it is.  Whatever
    [int] does, [get_db_connection] does the same in two interpreters
    that differ by [int] only; and, once the driver modules are imported,
    it calls the function that opens the connection with arguments none
    of which is a number, the text of the port being part of a string
    among them. *)
Theorem get_db_connection_port_as_text (rt rt' : Runtime)
  (db_type user password host port db_name : str) (log : list event) :
  db_type <> DBType.MYSQL ->
  ((forall m, import_module rt m = import_module rt' m) ->
   (forall callee args,
       driver_call rt callee args = driver_call rt' callee args) ->
   get_db_connection rt db_type user password host port db_name log
   = get_db_connection rt' db_type user password host port db_name log)
  /\ (forall n callee args,
         connect_request db_type user password host port db_name n
         = Some (callee, args) ->
         (forall m, In m (driver_modules db_type) ->
                    import_module rt m = None) ->
         (exists tail,
             fst (get_db_connection rt db_type user password host port
                    db_name log)
             = log ++ map EvImport (driver_modules db_type)
                   ++ EvCall callee args :: tail)
         /\ (exists before after,
                In (pos (VStr (before ++ port ++ after))) args)
         /\ Forall (fun a => forall z, snd a <> VInt z) args).
Proof.
  intros Hne. split.
  - intros Hi Hc. apply eqb_neq in Hne.
    unfold get_db_connection, try_except, mbind, import_, call_, int_, raise.
    rewrite Hne.
    destruct (eqb db_type DBType.ORACLE); [rewrite !Hi, !Hc; reflexivity|].
    destruct (eqb db_type DBType.POSTGRES); [rewrite !Hi, !Hc; reflexivity|].
    destruct (eqb db_type DBType.DB2); [|reflexivity].
    rewrite !Hi.
    destruct (import_module rt' "ibm_db"); [reflexivity|].
    destruct (import_module rt' "ibm_db_dbi"); [reflexivity|].
    rewrite Hc.
    destruct (driver_call rt' "ibm_db.connect" _); [|reflexivity].
    rewrite Hc. reflexivity.
  - intros n callee args Hr Hm.
    destruct (@connect_request_cases _ _ _ _ _ _ _ _ _ Hr)
      as [-> | [-> | [-> | ->]]];
      [|contradiction Hne; reflexivity| |];
      injection Hr as <- <-; (split; [|split]).
    + run_connection. rewrite (Hm "cx_Oracle"%string) by (simpl; tauto).
      destruct (driver_call rt _ _) as [v|e];
        [|destruct (isinstance e "ModuleNotFoundError")];
        exists []; cbn [fst]; rewrite <- app_assoc; reflexivity.
    + exists (host ++ u ":"), (u "/" ++ db_name).
      rewrite <- !app_assoc. simpl. auto.
    + repeat constructor; discriminate.
    + run_connection. rewrite (Hm "psycopg2"%string) by (simpl; tauto).
      destruct (driver_call rt _ _) as [v|e];
        [|destruct (isinstance e "ModuleNotFoundError")];
        exists []; cbn [fst]; rewrite <- app_assoc; reflexivity.
    + exists (u "user='" ++ user ++ u "'" ++ psycopg2_separator
              ++ u "password='" ++ password ++ u "'" ++ psycopg2_separator
              ++ u "host='" ++ host ++ u "'" ++ psycopg2_separator
              ++ u "port='"),
             (u "'" ++ psycopg2_separator ++ u "dbname='" ++ db_name
              ++ u "'").
      left. unfold pos. do 2 f_equal. rewrite <- !app_assoc. reflexivity.
    + repeat constructor; discriminate.
    + run_connection.
      rewrite (Hm "ibm_db"%string), (Hm "ibm_db_dbi"%string)
        by (simpl; tauto).
      destruct (driver_call rt "ibm_db.connect" _) as [v|e].
      * exists [EvCall "ibm_db_dbi.Connection" [pos v]].
        destruct (driver_call rt "ibm_db_dbi.Connection" _) as [w|e];
          [|destruct (isinstance e "ModuleNotFoundError")];
          cbn [fst]; rewrite <- !app_assoc; reflexivity.
      * exists [].
        destruct (isinstance e "ModuleNotFoundError");
          cbn [fst]; rewrite <- !app_assoc; reflexivity.
    + exists (u "UID=" ++ user ++ u ";PWD=" ++ password
              ++ u ";HOSTNAME=" ++ host ++ u ";PORT="),
             (u ";DATABASE=" ++ db_name ++ u ";").
      left. unfold pos. do 2 f_equal. rewrite <- !app_assoc. reflexivity.
    + repeat constructor; discriminate.
Qed.

Lemma get_db_connection_port_as_text_witness :
  get_db_connection runtime_accepting DBType.POSTGRES (u "postgres")
    (u "secret") (u "localhost") (u "54e2") (u "test") []
  = get_db_connection runtime_accepting_without_int DBType.POSTGRES
      (u "postgres") (u "secret") (u "localhost") (u "54e2") (u "test") []
  /\ exists callee args tail before after,
      fst (get_db_connection runtime_accepting_without_int DBType.POSTGRES
             (u "postgres") (u "secret") (u "localhost") (u "54e2")
             (u "test") [])
      = [] ++ map EvImport (driver_modules DBType.POSTGRES)
           ++ EvCall callee args :: tail
      /\ In (pos (VStr (before ++ u "54e2" ++ after))) args.
Proof.
  assert (Hne : DBType.POSTGRES <> DBType.MYSQL) by discriminate.
  split.
  - apply (proj1 (@get_db_connection_port_as_text runtime_accepting
                    runtime_accepting_without_int DBType.POSTGRES
                    (u "postgres") (u "secret") (u "localhost") (u "54e2")
                    (u "test") [] Hne)); reflexivity.
  - destruct (proj2 (@get_db_connection_port_as_text
                       runtime_accepting_without_int
                       runtime_accepting_without_int DBType.POSTGRES
                       (u "postgres") (u "secret") (u "localhost")
                       (u "54e2") (u "test") [] Hne)
                0%Z _ _ eq_refl (fun _ _ => eq_refl))
      as ((tail & Ht) & (before & after & Hin) & _).
    eauto 8.
Defined.

(** X11. When the driver modules import, [int(port)] has a value for
    ["mysql"], and the call that opens the connection returns an object,
    [get_db_connection] returns that object, having made that call and no
    other; for ["db2"], the object is given to [ibm_db_dbi.Connection],
    and what [get_db_connection] returns is what this second call
    returns. *)
Theorem get_db_connection_success (rt : Runtime)
  (db_type user password host port db_name : str) (log : list event)
  (n : Z) (callee : string) (args : list argument) (conn : value) :
  (forall m, In m (driver_modules db_type) -> import_module rt m = None) ->
  (db_type = DBType.MYSQL -> builtin_int rt port = Ok n) ->
  connect_request db_type user password host port db_name n
  = Some (callee, args) ->
  driver_call rt callee args = Ok conn ->
  (db_type <> DBType.DB2 ->
   get_db_connection rt db_type user password host port db_name log
   = (log ++ map EvImport (driver_modules db_type) ++ [EvCall callee args],
      Ok conn))
  /\ (db_type = DBType.DB2 ->
      forall wrapper,
        driver_call rt "ibm_db_dbi.Connection" [pos conn] = Ok wrapper ->
        get_db_connection rt db_type user password host port db_name log
        = (log ++ map EvImport (driver_modules db_type)
               ++ [EvCall callee args;
                   EvCall "ibm_db_dbi.Connection" [pos conn]],
           Ok wrapper)).
Proof.
  intros Hm Hn Hr Hc.
  destruct (@connect_request_cases _ _ _ _ _ _ _ _ _ Hr)
    as [-> | [-> | [-> | ->]]];
    injection Hr as <- <-; (split; [intros Hne | intros Heq]);
    try discriminate Heq; try (contradiction Hne; reflexivity);
    run_connection.
  - rewrite (Hm "cx_Oracle"%string), Hc by (simpl; tauto).
    rewrite <- app_assoc. reflexivity.
  - rewrite (Hm "mysql.connector"%string), (Hn eq_refl), Hc
      by (simpl; tauto).
    rewrite <- app_assoc. reflexivity.
  - rewrite (Hm "psycopg2"%string), Hc by (simpl; tauto).
    rewrite <- app_assoc. reflexivity.
  - intros wrapper Hw.
    rewrite (Hm "ibm_db"%string), (Hm "ibm_db_dbi"%string), Hc, Hw
      by (simpl; tauto).
    rewrite <- !app_assoc. reflexivity.
Qed.

Lemma get_db_connection_success_witness :
  get_db_connection runtime_accepting DBType.DB2 (u "db2inst1")
    (u "secret") (u "localhost") (u "50000") (u "sample") []
  = ([EvImport "ibm_db"; EvImport "ibm_db_dbi";
      EvCall "ibm_db.connect"
        [pos (VStr (u "UID=db2inst1;PWD=secret;HOSTNAME=localhost;PORT=50000;DATABASE=sample;"));
         pos (VStr []); pos (VStr [])];
      EvCall "ibm_db_dbi.Connection" [pos (VObj 14)]],
     Ok (VObj 21))
  /\ get_db_connection World.runtime_one_account DBType.ORACLE
       (u "scott") (u "tiger") (u "localhost") (u "1521") (u "orcl") []
     = ([EvImport "cx_Oracle";
         EvCall "cx_Oracle.connect"
           [pos (VStr (u "scott")); pos (VStr (u "tiger"));
            pos (VStr (u "localhost:1521/orcl"))]],
        Ok (VObj 1)).
Proof.
  split.
  - apply (proj2 (@get_db_connection_success runtime_accepting DBType.DB2
                    (u "db2inst1") (u "secret") (u "localhost") (u "50000")
                    (u "sample") [] 50000%Z _ _ (VObj 14)
                    (fun _ _ => eq_refl) (fun _ => eq_refl) eq_refl eq_refl)
                 eq_refl (VObj 21) eq_refl).
  - apply (proj1 (@get_db_connection_success World.runtime_one_account
                    DBType.ORACLE (u "scott") (u "tiger") (u "localhost")
                    (u "1521") (u "orcl") [] 1521%Z _ _ (VObj 1)
                    (fun _ _ => eq_refl) (fun _ => eq_refl) eq_refl
                    eq_refl)).
    discriminate.
Defined.

(** ** [open_file] *)

(** X12. A file in [.gz] and a plain file read the same text through
    [open_file] when the first is the compressed form of the second. *)
Theorem open_file_gzip_same_text (fs : FileSystem) (codecs : Codecs)
  (plain gz : str) (data zdata : bytes) :
  endswith plain (u ".zip") = false ->
  endswith plain (u ".gz") = false ->
  endswith gz (u ".zip") = false ->
  endswith gz (u ".gz") = true ->
  fs_open fs plain = Ok data ->
  fs_open fs gz = Ok zdata ->
  gunzip codecs zdata = Ok data ->
  bind (open_file fs codecs gz) (read_text codecs)
  = bind (open_file fs codecs plain) (read_text codecs).
Proof.
  intros Hp1 Hp2 Hg1 Hg2 Hop Hog Hz.
  rewrite (open_file_gz fs codecs gz Hg1 Hg2 Hog).
  rewrite (open_file_plain fs codecs plain Hp1 Hp2 Hop).
  simpl. rewrite Hz. reflexivity.
Qed.

Lemma open_file_gzip_same_text_witness :
  bind (open_file World.fs World.codecs (u "people.csv.gz"))
       (read_text World.codecs)
  = bind (open_file World.fs World.codecs (u "people.csv"))
         (read_text World.codecs).
Proof.
  apply (@open_file_gzip_same_text World.fs World.codecs (u "people.csv")
           (u "people.csv.gz") World.text_bytes World.gzip_bytes);
    reflexivity.
Defined.

(** ** [csv.reader], [get_csv_reader] and [read_header] *)

Lemma split_from_cons (sep : codepoint) (body cur : str) :
  exists f fs, split_from sep cur body = f :: fs.
Proof.
  revert cur; induction body as [|c body IH]; intros cur; simpl.
  - eauto.
  - destruct (N.eqb c sep); [eauto | apply IH].
Qed.

(** The first part that [split_from] cuts starts with the field being
    read. *)
Lemma split_from_head (sep : codepoint) (body cur : str) :
  exists f fs, split_from sep cur body = f :: fs /\ length cur <= length f.
Proof.
  revert cur; induction body as [|c body IH]; intros cur; simpl.
  - eauto.
  - destruct (N.eqb c sep); [eauto|].
    destruct (IH (cur ++ [c])) as (f & fs & -> & Hl).
    exists f, fs. split; [reflexivity|].
    rewrite length_app in Hl. simpl in Hl. lia.
Qed.

Lemma split_from_no_separator (sep : codepoint) (body cur : str) :
  Forall (fun c => c <> sep) body ->
  split_from sep cur body = [cur ++ body].
Proof.
  revert cur; induction body as [|c body IH]; intros cur Hb; simpl.
  - rewrite app_nil_r. reflexivity.
  - inversion Hb as [|? ? Hc Hb']; subst.
    rewrite (proj2 (N.eqb_neq c sep) Hc), IH by assumption.
    rewrite <- app_assoc. reflexivity.
Qed.

Section CsvFacts.

Variable d q : codepoint.
Variable limit : N.

Lemma parse_chars_app (p : Csv.parser) (s t : str) :
  Csv.parse_chars d q limit p (s ++ t)
  = match Csv.parse_chars d q limit p s with
    | Ok p' => Csv.parse_chars d q limit p' t
    | Raise e => Raise e
    end.
Proof.
  revert p; induction s as [|c s IH]; intros p; simpl; [reflexivity|].
  destruct (Csv.parse_process_char d q limit p (Some c)); [apply IH|reflexivity].
Qed.

Lemma parse_add_char_ok (p : Csv.parser) (c : codepoint) :
  (N.of_nat (length (Csv.field p)) < limit)%N ->
  Csv.parse_add_char limit p c
  = Ok {| Csv.state := Csv.state p; Csv.fields := Csv.fields p;
          Csv.field := Csv.field p ++ [c] |}.
Proof.
  intros H. unfold Csv.parse_add_char.
  rewrite (proj2 (N.leb_gt _ _) H). reflexivity.
Qed.

(** When the parts to come are within the limit, there is room for one
    more character in the field being read. *)
Lemma within_limit_room (cur : str) (c : codepoint) (s : str) :
  within_limit limit (split_from d (cur ++ [c]) s) ->
  (N.of_nat (length cur) < limit)%N.
Proof.
  intros H. destruct (split_from_head d s (cur ++ [c])) as (f & fs & E & Hl).
  rewrite E in H. inversion H as [|? ? Hf _]; subst.
  rewrite length_app in Hl. simpl in Hl. lia.
Qed.

(** A run of characters without quote and newline: the fields are those
    of [split]. *)
Lemma parse_chars_plain (s : str) :
  forall p,
    between_quotes_free p ->
    Forall (plain_character q) s ->
    within_limit limit (split_from d (Csv.field p) s) ->
    exists p',
      Csv.parse_chars d q limit p s = Ok p'
      /\ between_quotes_free p'
      /\ Csv.fields p' ++ [Csv.field p']
         = Csv.fields p ++ split_from d (Csv.field p) s.
Proof.
  induction s as [|c s IH]; intros p Hp Hs Hl.
  - exists p. simpl. auto.
  - inversion Hs as [|? ? (Hnl & Hq) Hs']; subst.
    apply N.eqb_neq in Hq.
    assert (Hstep :
      exists p1,
        Csv.parse_process_char d q limit p (Some c) = Ok p1
        /\ between_quotes_free p1
        /\ within_limit limit (split_from d (Csv.field p1) s)
        /\ Csv.fields p1 ++ split_from d (Csv.field p1) s
           = Csv.fields p ++ split_from d (Csv.field p) (c :: s)).
    { simpl split_from. simpl split_from in Hl.
      destruct Hp as [(Hst & Hf) | Hst];
        unfold Csv.parse_process_char, Csv.start_field; rewrite Hst, Hnl;
        rewrite ?Hq; destruct (N.eqb c d) eqn:Hd.
      - eexists. split; [reflexivity|]. split; [left; split; reflexivity|].
        simpl. inversion Hl; subst. split; [assumption|].
        rewrite <- app_assoc. reflexivity.
      - rewrite parse_add_char_ok by (eapply within_limit_room; eassumption).
        eexists. split; [reflexivity|]. split; [right; reflexivity|].
        simpl. split; [assumption | reflexivity].
      - eexists. split; [reflexivity|]. split; [left; split; reflexivity|].
        simpl. inversion Hl; subst. split; [assumption|].
        rewrite <- app_assoc. reflexivity.
      - rewrite parse_add_char_ok by (eapply within_limit_room; eassumption).
        eexists. split; [reflexivity|]. split; [right; assumption|].
        simpl. split; [assumption | reflexivity]. }
    destruct Hstep as (p1 & H1 & Hp1 & Hl1 & Hf1).
    destruct (IH p1 Hp1 Hs' Hl1) as (p' & H' & Hp' & Hf').
    exists p'. simpl. rewrite H1. repeat split; try assumption.
    rewrite Hf'. assumption.
Qed.

(** At the start of a record, a character that is no newline character is
    read as at the start of a field. *)
Lemma start_of_field_chars (p : Csv.parser) (c : codepoint) (s : str) :
  start_of_field p ->
  Csv.is_newline c = false ->
  Csv.parse_chars d q limit p (c :: s)
  = Csv.parse_chars d q limit (Csv.set_state p Csv.START_FIELD) (c :: s).
Proof.
  intros ([Hst | Hst] & _) Hc; cbn [Csv.parse_chars].
  - replace (Csv.parse_process_char d q limit p (Some c))
      with (Csv.parse_process_char d q limit
              (Csv.set_state p Csv.START_FIELD) (Some c));
      [reflexivity|].
    unfold Csv.parse_process_char. rewrite Hst. simpl. rewrite Hc.
    reflexivity.
  - destruct p as [st fs fld]. simpl in Hst. subst st. reflexivity.
Qed.

Lemma parse_first_char (c : codepoint) (s : str) :
  Csv.is_newline c = false ->
  Csv.parse_chars d q limit Csv.parse_reset (c :: s)
  = Csv.parse_chars d q limit
      (Csv.set_state Csv.parse_reset Csv.START_FIELD) (c :: s).
Proof.
  intros Hc. apply start_of_field_chars; [|assumption].
  split; [left|]; reflexivity.
Qed.

Lemma end_of_plain_line (p : Csv.parser) :
  between_quotes_free p ->
  Csv.parse_line d q limit p [Csv.LF]
  = Ok {| Csv.state := Csv.START_RECORD;
          Csv.fields := Csv.fields p ++ [Csv.field p];
          Csv.field := [] |}.
Proof.
  destruct p as [st fs fld]. unfold between_quotes_free. simpl.
  intros [(-> & ->) | ->]; reflexivity.
Qed.

Lemma parse_line_app (p : Csv.parser) (s t : str) :
  Csv.parse_line d q limit p (s ++ t)
  = match Csv.parse_chars d q limit p s with
    | Ok p' => Csv.parse_line d q limit p' t
    | Raise e => Raise e
    end.
Proof.
  unfold Csv.parse_line. rewrite parse_chars_app.
  destruct (Csv.parse_chars d q limit p s); reflexivity.
Qed.

(** A line of newline characters only, or with no character: the empty
    record. *)
Lemma next_blank_line (line : str) (rest : list str) :
  Forall (fun c => Csv.is_newline c = true) line ->
  Csv.next d q limit (line :: rest) = (rest, Ok []).
Proof.
  intros Hl. unfold Csv.next. cbn [Csv.read_record].
  assert (Hline : Csv.parse_line d q limit Csv.parse_reset line
                  = Ok Csv.parse_reset).
  { destruct Hl as [|c line Hc Hl]; [reflexivity|].
    assert (H1 : Csv.parse_process_char d q limit Csv.parse_reset (Some c)
                 = Ok (Csv.set_state Csv.parse_reset Csv.EAT_CRNL)).
    { unfold Csv.parse_process_char, Csv.parse_reset. cbn [Csv.state].
      rewrite Hc. reflexivity. }
    assert (He : Csv.parse_chars d q limit
                   (Csv.set_state Csv.parse_reset Csv.EAT_CRNL) line
                 = Ok (Csv.set_state Csv.parse_reset Csv.EAT_CRNL)).
    { induction Hl as [|c' line' Hc' Hl' IH]; [reflexivity|].
      cbn [Csv.parse_chars].
      replace (Csv.parse_process_char d q limit
                 (Csv.set_state Csv.parse_reset Csv.EAT_CRNL) (Some c'))
        with (@Ok Csv.parser (Csv.set_state Csv.parse_reset Csv.EAT_CRNL));
        [exact IH|].
      unfold Csv.parse_process_char, Csv.set_state, Csv.parse_reset.
      cbn [Csv.state]. rewrite Hc'. reflexivity. }
    unfold Csv.parse_line. cbn [Csv.parse_chars]. rewrite H1, He.
    reflexivity. }
  rewrite Hline. reflexivity.
Qed.

(** A line without quotes: one record, the fields that the separator
    cuts, and no field when the line holds its end only. *)
Lemma next_plain_line (body : str) (rest : list str) :
  Forall (plain_character q) body ->
  within_limit limit (split_on d body) ->
  Csv.next d q limit ((body ++ [Csv.LF]) :: rest)
  = (rest, Ok (plain_record d body)).
Proof.
  intros Hb Hl. destruct body as [|c body].
  { apply next_blank_line. repeat constructor. }
  unfold Csv.next. cbn [Csv.read_record plain_record].
  assert (Hline :
    Csv.parse_line d q limit Csv.parse_reset ((c :: body) ++ [Csv.LF])
    = Ok {| Csv.state := Csv.START_RECORD;
            Csv.fields := split_on d (c :: body); Csv.field := [] |}).
  { assert (Hnl : Csv.is_newline c = false).
    { inversion Hb as [|? ? (Hnl & _) _]. assumption. }
    rewrite parse_line_app, (@parse_first_char c body Hnl).
    destruct (@parse_chars_plain (c :: body)
                (Csv.set_state Csv.parse_reset Csv.START_FIELD))
      as (p' & H' & Hp' & Hf');
      [left; split; reflexivity | assumption | exact Hl |].
    rewrite H', (end_of_plain_line Hp'), Hf'. reflexivity. }
  rewrite Hline. reflexivity.
Qed.

(** *** Fields between quotes, over the lines that hold them *)

Lemma newline_is_no_quote :
  Csv.is_newline q = false -> N.eqb Csv.LF q = false.
Proof.
  intros Hq.
  destruct (N.eqb_spec Csv.LF q) as [<-|]; [discriminate Hq | reflexivity].
Qed.

Lemma step_open_quote (p : Csv.parser) :
  start_of_field p ->
  Csv.is_newline q = false ->
  Csv.parse_process_char d q limit p (Some q)
  = Ok {| Csv.state := Csv.IN_QUOTED_FIELD; Csv.fields := Csv.fields p;
          Csv.field := [] |}.
Proof.
  destruct p as [st fs fld]. unfold start_of_field. cbn [Csv.state Csv.field].
  intros ([-> | ->] & ->) Hq;
    unfold Csv.parse_process_char, Csv.start_field;
    cbn [Csv.state Csv.set_state]; rewrite Hq, N.eqb_refl; reflexivity.
Qed.

Lemma step_quoted_quote (p : Csv.parser) :
  Csv.state p = Csv.IN_QUOTED_FIELD ->
  Csv.parse_process_char d q limit p (Some q)
  = Ok (Csv.set_state p Csv.QUOTE_IN_QUOTED_FIELD).
Proof.
  intros Hst. unfold Csv.parse_process_char.
  rewrite Hst, N.eqb_refl. reflexivity.
Qed.

Lemma step_quoted_other (p : Csv.parser) (c : codepoint) :
  Csv.state p = Csv.IN_QUOTED_FIELD ->
  N.eqb c q = false ->
  Csv.parse_process_char d q limit p (Some c)
  = Csv.parse_add_char limit p c.
Proof.
  intros Hst Hc. unfold Csv.parse_process_char.
  rewrite Hst, Hc. reflexivity.
Qed.

Lemma step_quote_quote (p : Csv.parser) :
  Csv.state p = Csv.QUOTE_IN_QUOTED_FIELD ->
  Csv.parse_process_char d q limit p (Some q)
  = match Csv.parse_add_char limit p q with
    | Ok p' => Ok (Csv.set_state p' Csv.IN_QUOTED_FIELD)
    | Raise e => Raise e
    end.
Proof.
  intros Hst. unfold Csv.parse_process_char.
  rewrite Hst, N.eqb_refl. reflexivity.
Qed.

Lemma step_quote_delimiter (p : Csv.parser) :
  Csv.state p = Csv.QUOTE_IN_QUOTED_FIELD ->
  N.eqb d q = false ->
  Csv.parse_process_char d q limit p (Some d)
  = Ok (Csv.set_state (Csv.parse_save_field p) Csv.START_FIELD).
Proof.
  intros Hst Hd. unfold Csv.parse_process_char.
  rewrite Hst, Hd, N.eqb_refl. reflexivity.
Qed.

Lemma step_quote_newline (p : Csv.parser) :
  Csv.state p = Csv.QUOTE_IN_QUOTED_FIELD ->
  N.eqb Csv.LF q = false ->
  N.eqb Csv.LF d = false ->
  Csv.parse_line d q limit p [Csv.LF]
  = Ok {| Csv.state := Csv.START_RECORD;
          Csv.fields := Csv.fields p ++ [Csv.field p];
          Csv.field := [] |}.
Proof.
  intros Hst Hq Hd. unfold Csv.parse_line. cbn [Csv.parse_chars].
  replace (Csv.parse_process_char d q limit p (Some Csv.LF))
    with (@Ok Csv.parser (Csv.end_of_record p (Some Csv.LF)));
    [reflexivity|].
  unfold Csv.parse_process_char. rewrite Hst, Hq, Hd. reflexivity.
Qed.

Lemma continues_nil (p : Csv.parser) : continues d q limit p [] p.
Proof.
  split; [reflexivity|]. intros p0 cur after rest H.
  exists p0, cur. split; [assumption | reflexivity].
Qed.

Lemma continues_app (p p1 p2 : Csv.parser) (s t : str) :
  continues d q limit p s p1 ->
  continues d q limit p1 t p2 ->
  continues d q limit p (s ++ t) p2.
Proof.
  intros (Hs & Hs') (Ht & Ht'). split.
  - rewrite parse_chars_app, Hs. exact Ht.
  - intros p0 cur after rest H.
    destruct (Hs' p0 cur (t ++ after) rest H) as (p0' & cur' & H' & E).
    destruct (Ht' p0' cur' after rest H') as (p0'' & cur'' & H'' & E').
    exists p0'', cur''. split; [assumption|].
    rewrite <- app_assoc, E. exact E'.
Qed.

(** A character that is no line feed stays in the line being read. *)
Lemma continues_char (p p' : Csv.parser) (c : codepoint) :
  c <> Csv.LF ->
  Csv.parse_process_char d q limit p (Some c) = Ok p' ->
  continues d q limit p [c] p'.
Proof.
  intros Hc Hp. split.
  - cbn [Csv.parse_chars]. rewrite Hp. reflexivity.
  - intros p0 cur after rest H. exists p0, (cur ++ [c]). split.
    + rewrite parse_chars_app, H. cbn [Csv.parse_chars]. rewrite Hp.
      reflexivity.
    + cbn [app lines_from]. rewrite (proj2 (N.eqb_neq c Csv.LF) Hc).
      reflexivity.
Qed.

(** A line feed between quotes ends the line, not the record: the reader
    takes the next line, and the line feed belongs to the field. *)
Lemma continues_newline (p : Csv.parser) :
  Csv.state p = Csv.IN_QUOTED_FIELD ->
  Csv.is_newline q = false ->
  (N.of_nat (length (Csv.field p)) < limit)%N ->
  continues d q limit p [Csv.LF]
    {| Csv.state := Csv.IN_QUOTED_FIELD; Csv.fields := Csv.fields p;
       Csv.field := Csv.field p ++ [Csv.LF] |}.
Proof.
  intros Hst Hq Hl.
  assert (Hstep :
    Csv.parse_process_char d q limit p (Some Csv.LF)
    = Ok {| Csv.state := Csv.IN_QUOTED_FIELD; Csv.fields := Csv.fields p;
            Csv.field := Csv.field p ++ [Csv.LF] |}).
  { rewrite step_quoted_other, parse_add_char_ok, Hst;
      auto using newline_is_no_quote. }
  split.
  - cbn [Csv.parse_chars]. rewrite Hstep. reflexivity.
  - intros p0 cur after rest H. eexists _, []. split; [reflexivity|].
    cbn [app lines_from]. rewrite N.eqb_refl.
    cbn [app Csv.read_record].
    unfold Csv.parse_line. rewrite parse_chars_app, H.
    cbn [Csv.parse_chars]. rewrite Hstep. reflexivity.
Qed.

(** The characters of a field between quotes, its quotes doubled. *)
Lemma continues_quoted_content (f : str) :
  forall p,
    Csv.state p = Csv.IN_QUOTED_FIELD ->
    Csv.is_newline q = false ->
    (N.of_nat (length (Csv.field p) + length f) <= limit)%N ->
    continues d q limit p
      (flat_map (fun c => if N.eqb c q then [q; q] else [c]) f)
      {| Csv.state := Csv.IN_QUOTED_FIELD; Csv.fields := Csv.fields p;
         Csv.field := Csv.field p ++ f |}.
Proof.
  induction f as [|c f IH]; intros p Hst Hq Hl.
  - simpl. rewrite app_nil_r. destruct p. simpl in Hst. subst.
    apply continues_nil.
  - assert (Hqlf : q <> Csv.LF).
    { intros ->. discriminate Hq. }
    cbn [flat_map]. simpl length in Hl.
    replace (Csv.field p ++ c :: f) with ((Csv.field p ++ [c]) ++ f)
      by (rewrite <- app_assoc; reflexivity).
    assert (Hroom : (N.of_nat (length (Csv.field p)) < limit)%N) by lia.
    assert (Hnext :
      continues d q limit
        {| Csv.state := Csv.IN_QUOTED_FIELD; Csv.fields := Csv.fields p;
           Csv.field := Csv.field p ++ [c] |}
        (flat_map (fun c => if N.eqb c q then [q; q] else [c]) f)
        {| Csv.state := Csv.IN_QUOTED_FIELD; Csv.fields := Csv.fields p;
           Csv.field := (Csv.field p ++ [c]) ++ f |}).
    { apply (IH {| Csv.state := Csv.IN_QUOTED_FIELD;
                   Csv.fields := Csv.fields p;
                   Csv.field := Csv.field p ++ [c] |});
        [reflexivity | assumption |].
      cbn [Csv.field]. rewrite length_app. simpl. lia. }
    apply continues_app with (2 := Hnext).
    destruct (N.eqb c q) eqn:Hc.
    + apply N.eqb_eq in Hc. subst c.
      apply (@continues_app p (Csv.set_state p Csv.QUOTE_IN_QUOTED_FIELD)
               _ [q] [q]).
      * apply continues_char; [assumption|].
        apply step_quoted_quote; assumption.
      * apply continues_char; [assumption|].
        rewrite step_quote_quote by reflexivity.
        rewrite parse_add_char_ok by assumption. reflexivity.
    + destruct (N.eqb_spec c Csv.LF) as [-> | Hlf].
      * apply continues_newline; assumption.
      * apply continues_char; [assumption|].
        rewrite step_quoted_other, parse_add_char_ok by assumption.
        rewrite Hst. reflexivity.
Qed.

Lemma continues_quoted_field (f : str) (p : Csv.parser) :
  Csv.is_newline q = false ->
  start_of_field p ->
  (N.of_nat (length f) <= limit)%N ->
  continues d q limit p (quoted_field q f)
    {| Csv.state := Csv.QUOTE_IN_QUOTED_FIELD;
       Csv.fields := Csv.fields p; Csv.field := f |}.
Proof.
  intros Hq Hp Hl. unfold quoted_field.
  assert (Hqlf : q <> Csv.LF).
  { intros ->. discriminate Hq. }
  eapply continues_app.
  { apply continues_char; [assumption|].
    apply step_open_quote; assumption. }
  eapply continues_app.
  { apply continues_quoted_content; [reflexivity | assumption |].
    cbn [Csv.field]. simpl. lia. }
  apply continues_char; [assumption|].
  apply step_quoted_quote. reflexivity.
Qed.

Lemma continues_quoted_fields (fs : list str) :
  forall (f : str) (p : Csv.parser),
    Csv.is_newline q = false ->
    d <> q ->
    d <> Csv.LF ->
    start_of_field p ->
    within_limit limit (f :: fs) ->
    continues d q limit p
      (join_fields d (map (quoted_field q) (f :: fs)))
      {| Csv.state := Csv.QUOTE_IN_QUOTED_FIELD;
         Csv.fields := Csv.fields p ++ removelast (f :: fs);
         Csv.field := last (f :: fs) [] |}.
Proof.
  induction fs as [|g fs IH]; intros f p Hq Hdq Hd Hp Hl.
  - cbn [map join_fields removelast last]. rewrite app_nil_r.
    apply continues_quoted_field; try assumption.
    inversion Hl; assumption.
  - inversion Hl as [|? ? Hlf Hl']; subst.
    change (join_fields d (map (quoted_field q) (f :: g :: fs)))
      with (quoted_field q f
            ++ [d] ++ join_fields d (map (quoted_field q) (g :: fs))).
    change (removelast (f :: g :: fs)) with (f :: removelast (g :: fs)).
    change (last (f :: g :: fs) []) with (last (g :: fs) []).
    eapply continues_app.
    { apply continues_quoted_field; eassumption. }
    eapply continues_app.
    { apply continues_char; [assumption|].
      apply step_quote_delimiter; [reflexivity|].
      apply N.eqb_neq. assumption. }
    replace (Csv.fields p ++ f :: removelast (g :: fs))
      with ((Csv.fields p ++ [f]) ++ removelast (g :: fs))
      by (rewrite <- app_assoc; reflexivity).
    apply (IH g (Csv.set_state
                   (Csv.parse_save_field
                      {| Csv.state := Csv.QUOTE_IN_QUOTED_FIELD;
                         Csv.fields := Csv.fields p; Csv.field := f |})
                   Csv.START_FIELD)); try assumption.
    split; [right|]; reflexivity.
Qed.

(** Fields between quotes, on the lines that their text makes: one
    record, the fields as they were before they were quoted. *)
Lemma next_quoted_lines (f : str) (fs rest : list str) :
  Csv.is_newline q = false ->
  d <> q ->
  d <> Csv.LF ->
  within_limit limit (f :: fs) ->
  Csv.next d q limit (lines_of (quoted_line d q (f :: fs)) ++ rest)
  = (rest, Ok (f :: fs)).
Proof.
  intros Hq Hdq Hd Hl.
  destruct (@continues_quoted_fields fs f Csv.parse_reset Hq Hdq Hd)
    as (_ & H); [split; [left|]; reflexivity | assumption |].
  destruct (H Csv.parse_reset [] [Csv.LF] rest eq_refl)
    as (p0 & cur & Hp & E).
  unfold Csv.next, lines_of, quoted_line. rewrite E.
  cbn [lines_from]. rewrite N.eqb_refl. cbn [lines_from app Csv.read_record].
  rewrite parse_line_app, Hp.
  rewrite step_quote_newline;
    [|reflexivity | apply newline_is_no_quote; assumption
     | apply N.eqb_neq; congruence].
  cbn [Csv.at_start_record Csv.state Csv.fields Csv.field].
  change (Csv.fields Csv.parse_reset) with (@nil str).
  rewrite app_nil_l, <- app_removelast_last by discriminate. reflexivity.
Qed.

(** *** A field longer than the limit *)

Lemma step_plain_delimiter (p : Csv.parser) :
  between_quotes_free p ->
  Csv.is_newline d = false ->
  d <> q ->
  Csv.parse_process_char d q limit p (Some d)
  = Ok (Csv.set_state (Csv.parse_save_field p) Csv.START_FIELD).
Proof.
  intros Hp Hd Hdq. apply N.eqb_neq in Hdq.
  destruct Hp as [(Hst & _) | Hst];
    unfold Csv.parse_process_char, Csv.start_field;
    rewrite Hst, Hd, ?Hdq, N.eqb_refl; reflexivity.
Qed.

(** A field and the separator after it. *)
Lemma parse_chars_cell (c : cell) (p : Csv.parser) :
  Csv.is_newline d = false ->
  Csv.is_newline q = false ->
  d <> q ->
  start_of_field p ->
  cell_ok d q c ->
  (N.of_nat (length (cell_value c)) <= limit)%N ->
  Csv.parse_chars d q limit p (write_cell q c ++ [d])
  = Ok {| Csv.state := Csv.START_FIELD;
          Csv.fields := Csv.fields p ++ [cell_value c];
          Csv.field := [] |}.
Proof.
  intros Hd Hq Hdq Hp Hc Hl.
  assert (Hfirst : exists x t, write_cell q c ++ [d] = x :: t
                               /\ Csv.is_newline x = false).
  { destruct c as [[|x f] | f]; cbn [write_cell quoted_field app]; eauto.
    destruct Hc as (Hc & _). inversion Hc as [|? ? (Hx & _) _]. eauto. }
  destruct Hfirst as (x & t & Hxt & Hx).
  rewrite Hxt, (@start_of_field_chars p x t Hp Hx), <- Hxt.
  assert (Hp' : start_of_field (Csv.set_state p Csv.START_FIELD)).
  { destruct Hp as (_ & Hf). split; [right; reflexivity | exact Hf]. }
  assert (Hf : Csv.field p = []) by (apply Hp).
  rewrite parse_chars_app. destruct c as [f | f]; cbn [write_cell cell_value].
  - destruct Hc as (Hplain & Hnd). cbn [cell_value] in Hl.
    destruct (@parse_chars_plain f (Csv.set_state p Csv.START_FIELD))
      as (p' & H' & Hbq & Hfs);
      [left; split; [reflexivity | exact Hf] | assumption | |].
    { cbn [Csv.field Csv.set_state]. rewrite Hf.
      rewrite split_from_no_separator by assumption.
      repeat constructor. assumption. }
    rewrite H'. cbn [Csv.parse_chars].
    rewrite step_plain_delimiter by assumption.
    unfold Csv.set_state at 1, Csv.parse_save_field.
    cbn [Csv.state Csv.fields Csv.field].
    rewrite Hfs. cbn [Csv.fields Csv.field Csv.set_state]. rewrite Hf.
    rewrite split_from_no_separator by assumption. reflexivity.
  - cbn [cell_value] in Hl.
    destruct (@continues_quoted_field f (Csv.set_state p Csv.START_FIELD)
                Hq Hp' Hl) as (H' & _).
    rewrite H'. cbn [Csv.parse_chars].
    rewrite step_quote_delimiter by (try reflexivity; apply N.eqb_neq;
                                     assumption).
    reflexivity.
Qed.

(** The fields at the start of a line, each with the separator after
    it. *)
Lemma parse_chars_line_start (cells : list cell) :
  forall p,
    Csv.is_newline d = false ->
    Csv.is_newline q = false ->
    d <> q ->
    start_of_field p ->
    Forall (cell_ok d q) cells ->
    within_limit limit (map cell_value cells) ->
    exists p',
      Csv.parse_chars d q limit p (line_start d q cells) = Ok p'
      /\ start_of_field p'
      /\ Csv.fields p' = Csv.fields p ++ map cell_value cells.
Proof.
  induction cells as [|c cells IH]; intros p Hd Hq Hdq Hp Hc Hl.
  - exists p. simpl. rewrite app_nil_r. auto.
  - inversion Hc as [|? ? Hc1 Hc']; subst.
    inversion Hl as [|? ? Hl1 Hl']; subst.
    unfold line_start. cbn [flat_map]. rewrite parse_chars_app.
    rewrite parse_chars_cell by assumption.
    destruct (IH {| Csv.state := Csv.START_FIELD;
                    Csv.fields := Csv.fields p ++ [cell_value c];
                    Csv.field := [] |}) as (p' & H' & Hp' & Hf');
      try assumption; [split; [right|]; reflexivity|].
    exists p'. split; [exact H'|]. split; [assumption|].
    rewrite Hf'. cbn [Csv.fields map]. rewrite <- app_assoc. reflexivity.
Qed.

(** A field of more characters than the limit: the character that comes
    after the limit is refused. *)
Lemma parse_chars_long_field (p : Csv.parser) (pre : str) (c : codepoint)
  (post : str) :
  start_of_field p ->
  Forall (plain_character q) (pre ++ [c]) ->
  Forall (fun c => c <> d) (pre ++ [c]) ->
  N.of_nat (length pre) = limit ->
  Csv.parse_chars d q limit p (pre ++ c :: post)
  = Raise (Csv.field_limit_error limit).
Proof.
  intros Hstart Hp Hd Hl.
  assert (Hfirst : exists x t, pre ++ c :: post = x :: t
                               /\ Csv.is_newline x = false).
  { destruct pre as [|x pre].
    - exists c, post. split; [reflexivity|].
      inversion Hp as [|? ? (H & _) _]. assumption.
    - exists x, (pre ++ c :: post). split; [reflexivity|].
      inversion Hp as [|? ? (H & _) _]. assumption. }
  destruct Hfirst as (x & t & Hxt & Hx).
  rewrite Hxt, (@start_of_field_chars p x t Hstart Hx), <- Hxt.
  assert (Hf : Csv.field p = []) by (apply Hstart).
  apply Forall_app in Hp. destruct Hp as (Hp & Hc).
  apply Forall_app in Hd. destruct Hd as (Hd & Hcd).
  apply Forall_inv in Hc. destruct Hc as (Hnl & Hq).
  apply Forall_inv in Hcd. rename Hcd into Hne.
  apply N.eqb_neq in Hq. apply N.eqb_neq in Hne.
  rewrite parse_chars_app.
  destruct (@parse_chars_plain pre (Csv.set_state p Csv.START_FIELD))
    as (p' & H' & Hp' & Hf');
    [left; split; [reflexivity | exact Hf] | assumption | |].
  { cbn [Csv.field Csv.set_state]. rewrite Hf.
    rewrite split_from_no_separator by assumption.
    repeat constructor. simpl. lia. }
  rewrite H'. cbn [Csv.field Csv.fields Csv.set_state] in Hf'.
  rewrite Hf, split_from_no_separator in Hf' by assumption.
  simpl in Hf'. apply app_inj_tail in Hf'. destruct Hf' as (_ & Hfield).
  cbn [Csv.parse_chars].
  assert (Hadd : Csv.parse_add_char limit p' c
                 = Raise (Csv.field_limit_error limit)).
  { unfold Csv.parse_add_char. rewrite Hfield, Hl, N.leb_refl.
    reflexivity. }
  destruct Hp' as [(Hst & _) | Hst];
    unfold Csv.parse_process_char, Csv.start_field;
    rewrite Hst, Hnl, ?Hq, Hne, Hadd; reflexivity.
Qed.

End CsvFacts.

Lemma get_csv_reader_ok (cfg : Config) (d q : codepoint) (file : list str) :
  column_separator cfg = [d] ->
  quote_char cfg = [q] ->
  get_csv_reader cfg file = Ok (reader_on d q file).
Proof.
  intros Hd Hq. unfold get_csv_reader, Csv.new_reader.
  rewrite Hd, Hq. reflexivity.
Qed.

(** X13. A line without quote character and without newline inside it is
    read as one record, whose fields are the parts of the line between
    the separators, empty parts included, when no part is longer than the
    limit on the length of a field; a line that holds nothing but its end
    is read as the record without fields.  The reader is left on the
    lines that follow. *)
Theorem get_csv_reader_plain_line (cfg : Config) (limit : N)
  (d q : codepoint) (body : str) (rest : list str) :
  column_separator cfg = [d] ->
  quote_char cfg = [q] ->
  Forall (plain_character q) body ->
  within_limit limit (split_on d body) ->
  exists reader,
    get_csv_reader cfg ((body ++ [Csv.LF]) :: rest) = Ok reader
    /\ Csv.reader_next limit reader
       = (reader_on d q rest,
          Ok (match body with
              | [] => []
              | _ :: _ => split_on d body
              end)).
Proof.
  intros Hd Hq Hb Hl. eexists. split.
  - apply get_csv_reader_ok; eassumption.
  - unfold Csv.reader_next, reader_on. cbn [Csv.delimiter Csv.quotechar
      Csv.input].
    rewrite next_plain_line by assumption. reflexivity.
Qed.

Lemma get_csv_reader_plain_line_witness :
  exists reader,
    get_csv_reader default_config [u "name,,age" ++ [Csv.LF]; u "Bob,x,3"]
    = Ok reader
    /\ Csv.reader_next 4 reader
       = (reader_on 44%N 34%N [u "Bob,x,3"], Ok [u "name"; []; u "age"]).
Proof.
  apply (@get_csv_reader_plain_line default_config 4%N
           44%N 34%N (u "name,,age") [u "Bob,x,3"]).
  - reflexivity.
  - reflexivity.
  - repeat constructor; discriminate.
  - repeat constructor; discriminate.
Defined.

(** X14. A line that holds newline characters only, or nothing, is read
    as the empty record, and [read_header] makes [None] of it; on an input
    without any line, [read_header] raises [StopIteration]. *)
Theorem read_header_blank_line (upper_nonascii : codepoint -> str)
  (cfg : Config) (limit : N) (d q : codepoint) (line : str)
  (rest : list str) :
  column_separator cfg = [d] ->
  quote_char cfg = [q] ->
  Forall (fun c => Csv.is_newline c = true) line ->
  (exists reader,
      get_csv_reader cfg (line :: rest) = Ok reader
      /\ Csv.reader_next limit reader = (reader_on d q rest, Ok [])
      /\ read_header upper_nonascii limit reader
         = (reader_on d q rest, Ok None))
  /\ (exists reader,
         get_csv_reader cfg [] = Ok reader
         /\ read_header upper_nonascii limit reader
            = (reader, Raise Csv.StopIteration)).
Proof.
  intros Hd Hq Hl. split.
  - eexists. split; [apply get_csv_reader_ok; eassumption|].
    unfold read_header, Csv.reader_next, reader_on.
    cbn [Csv.delimiter Csv.quotechar Csv.input].
    rewrite next_blank_line by assumption. split; reflexivity.
  - eexists. split; [apply get_csv_reader_ok; eassumption|]. reflexivity.
Qed.

Lemma read_header_blank_line_witness :
  exists reader,
    get_csv_reader default_config [[Csv.LF]; u "a,b"] = Ok reader
    /\ Csv.reader_next default_field_limit reader
       = (reader_on 44%N 34%N [u "a,b"], Ok [])
    /\ read_header (fun c => [c]) default_field_limit reader
       = (reader_on 44%N 34%N [u "a,b"], Ok None).
Proof.
  apply (proj1 (@read_header_blank_line (fun c => [c]) default_config
                  default_field_limit 44%N 34%N [Csv.LF] [u "a,b"]
                  eq_refl eq_refl
                  (@Forall_cons _ (fun c => Csv.is_newline c = true)
                     Csv.LF [] eq_refl (Forall_nil _)))).
Defined.


(** X15. On a first line without quote character, whose parts between
    the separators are within the limit on the length of a field,
    [read_header] returns the column names of these parts, each one
    without its quotes, trimmed, its spaces replaced and in upper case,
    in the order of the line and with its duplicates, or [None] when the
    line holds nothing but its end; it leaves the reader on the second
    line. *)
Theorem read_header_plain_line (upper_nonascii : codepoint -> str)
  (cfg : Config) (limit : N) (d q : codepoint) (body : str)
  (rest : list str) :
  column_separator cfg = [d] ->
  quote_char cfg = [q] ->
  Forall (plain_character q) body ->
  within_limit limit (split_on d body) ->
  exists reader,
    get_csv_reader cfg ((body ++ [Csv.LF]) :: rest) = Ok reader
    /\ read_header upper_nonascii limit reader
       = (reader_on d q rest,
          Ok (match body with
              | [] => None
              | _ :: _ =>
                  Some (map (format_field upper_nonascii true)
                            (split_on d body))
              end)).
Proof.
  intros Hd Hq Hb Hl. eexists. split.
  - apply get_csv_reader_ok; eassumption.
  - unfold read_header, Csv.reader_next, reader_on.
    cbn [Csv.delimiter Csv.quotechar Csv.input].
    rewrite next_plain_line by assumption.
    destruct body as [|c body]; [reflexivity|]. cbn [plain_record].
    unfold split_on.
    destruct (split_from_cons d (c :: body) []) as (f & fs & ->).
    rewrite format_list_cons. reflexivity.
Qed.

Lemma read_header_plain_line_witness :
  exists reader,
    get_csv_reader default_config
      [u "Full Name, age, age" ++ [Csv.LF]; u "Bob,3,4" ++ [Csv.LF]]
    = Ok reader
    /\ read_header (fun c => [c]) 9 reader
       = (reader_on 44%N 34%N [u "Bob,3,4" ++ [Csv.LF]],
          Ok (Some [u "FULL_NAME"; u "AGE"; u "AGE"])).
Proof.
  apply (@read_header_plain_line (fun c => [c]) default_config
           9%N 44%N 34%N (u "Full Name, age, age")
           [u "Bob,3,4" ++ [Csv.LF]]).
  - reflexivity.
  - reflexivity.
  - repeat constructor; discriminate.
  - repeat constructor; discriminate.
Defined.

(** X16. Fields written between quotes, with each quote inside a field
    doubled, are read back as they were, whatever they hold: separators,
    quotes and newline characters inside a field belong to the field.
    The input is the text cut into lines after each line feed, as the
    iteration over a file gives it: a field that holds line feeds is
    read over several lines, and the reader is left on the line after
    the last of them. *)
Theorem get_csv_reader_quoted_line (cfg : Config) (limit : N)
  (d q : codepoint) (f : str) (fs rest : list str) :
  column_separator cfg = [d] ->
  quote_char cfg = [q] ->
  Csv.is_newline q = false ->
  d <> q ->
  d <> Csv.LF ->
  within_limit limit (f :: fs) ->
  exists reader,
    get_csv_reader cfg (lines_of (quoted_line d q (f :: fs)) ++ rest)
    = Ok reader
    /\ Csv.reader_next limit reader = (reader_on d q rest, Ok (f :: fs)).
Proof.
  intros Hd Hq Hnl Hdq Hlf Hl. eexists. split.
  - apply get_csv_reader_ok; eassumption.
  - unfold Csv.reader_next, reader_on.
    cbn [Csv.delimiter Csv.quotechar Csv.input].
    rewrite next_quoted_lines by assumption. reflexivity.
Qed.

Lemma get_csv_reader_quoted_line_witness :
  exists reader,
    get_csv_reader default_config
      [[DQUOTE] ++ u "Doe, Jane" ++ [DQUOTE] ++ u ","
         ++ [DQUOTE; DQUOTE; DQUOTE] ++ u "J" ++ [Csv.LF];
       u "K" ++ [DQUOTE] ++ u "," ++ [DQUOTE; DQUOTE; Csv.LF];
       u "x,y" ++ [Csv.LF]]
    = Ok reader
    /\ Csv.reader_next 9 reader
       = (reader_on 44%N 34%N [u "x,y" ++ [Csv.LF]],
          Ok [u "Doe, Jane"; [DQUOTE] ++ u "J" ++ [Csv.LF] ++ u "K"; []]).
Proof.
  apply (@get_csv_reader_quoted_line default_config 9%N
           44%N 34%N (u "Doe, Jane")
           [[DQUOTE] ++ u "J" ++ [Csv.LF] ++ u "K"; []]
           [u "x,y" ++ [Csv.LF]]).
  - reflexivity.
  - reflexivity.
  - reflexivity.
  - discriminate.
  - discriminate.
  - repeat constructor; discriminate.
Defined.

(** X17. A field without quotes that is longer than the limit on the
    length of a field makes the reader raise the error of the module
    [csv], wherever the field is in the line: at its start, or after
    fields, written as they are or between quotes, that are within the
    limit.  The line is consumed, and the reader is left on the lines
    that follow. *)
Theorem get_csv_reader_field_limit (cfg : Config) (limit : N)
  (d q : codepoint) (cells : list cell) (pre : str) (c : codepoint)
  (post : str) (rest : list str) :
  column_separator cfg = [d] ->
  quote_char cfg = [q] ->
  Csv.is_newline d = false ->
  Csv.is_newline q = false ->
  d <> q ->
  Forall (cell_ok d q) cells ->
  within_limit limit (map cell_value cells) ->
  Forall (plain_character q) (pre ++ [c]) ->
  Forall (fun c => c <> d) (pre ++ [c]) ->
  N.of_nat (length pre) = limit ->
  exists reader,
    get_csv_reader cfg ((line_start d q cells ++ pre ++ c :: post) :: rest)
    = Ok reader
    /\ Csv.reader_next limit reader
       = (reader_on d q rest, Raise (Csv.field_limit_error limit))
    /\ isinstance (Csv.field_limit_error limit) "Error" = true.
Proof.
  intros Hd Hq Hnd Hnq Hdq Hc Hcl Hp Hpd Hl. eexists. split.
  - apply get_csv_reader_ok; eassumption.
  - split; [|reflexivity].
    unfold Csv.reader_next, reader_on, Csv.next.
    cbn [Csv.delimiter Csv.quotechar Csv.input Csv.read_record].
    destruct (@parse_chars_line_start d q limit cells Csv.parse_reset)
      as (p' & H' & Hp' & _); try assumption;
      [split; [left|]; reflexivity|].
    unfold Csv.parse_line. rewrite parse_chars_app, H'.
    rewrite parse_chars_long_field by assumption. reflexivity.
Qed.

Lemma get_csv_reader_field_limit_witness :
  exists reader,
    get_csv_reader default_config
      [u "ab," ++ [DQUOTE] ++ u "c,d" ++ [DQUOTE] ++ u ",abcd,e" ++ [Csv.LF];
       u "x"]
    = Ok reader
    /\ Csv.reader_next 3 reader
       = (reader_on 44%N 34%N [u "x"], Raise (Csv.field_limit_error 3))
    /\ isinstance (Csv.field_limit_error 3) "Error" = true.
Proof.
  apply (@get_csv_reader_field_limit default_config 3%N 44%N 34%N
           [Plain (u "ab"); Quoted (u "c,d")]
           (u "abc") 100%N (u ",e" ++ [Csv.LF]) [u "x"]).
  - reflexivity.
  - reflexivity.
  - reflexivity.
  - reflexivity.
  - discriminate.
  - repeat constructor; discriminate.
  - repeat constructor; discriminate.
  - repeat constructor; discriminate.
  - repeat constructor; discriminate.
  - reflexivity.
Defined.

(** ** [find_all_files] on a directory written with a slash at its end *)

Lemma glob_dirname_trailing_slash (D : str) :
  forallb Glob.is_sep D = false ->
  glob_dirname (D ++ [Glob.SEP]) = glob_dirname D.
Proof.
  intros H. unfold glob_dirname.
  rewrite forallb_app, H. cbn [andb].
  rewrite rev_app_distr. reflexivity.
Qed.

Lemma has_magic_trailing_slash (D : str) :
  Glob.has_magic (D ++ [Glob.SEP]) = Glob.has_magic D.
Proof. rewrite has_magic_app. simpl. apply orb_false_r. Qed.

(** X18. A slash at the end of the name of a directory changes nothing:
    [find_all_files] returns the same paths for [D] and for [D + "/"],
    when [D] holds a character other than the slash and none of [*], [?]
    and [[]. *)
Theorem find_all_files_trailing_slash (fs : FileSystem) (D : str) :
  isdir fs D = true ->
  isdir fs (D ++ [Glob.SEP]) = true ->
  Glob.has_magic D = false ->
  forallb Glob.is_sep D = false ->
  find_all_files fs (D ++ [Glob.SEP]) = find_all_files fs D.
Proof.
  intros Hd Hds Hm Hs.
  assert (Hms : Glob.has_magic (D ++ [Glob.SEP]) = false)
    by (rewrite has_magic_trailing_slash; assumption).
  destruct (find_all_files_directory fs D Hd Hm) as (-> & _).
  destruct (find_all_files_directory fs (D ++ [Glob.SEP]) Hds Hms) as (-> & _).
  unfold csv_paths. rewrite glob_dirname_trailing_slash by assumption.
  reflexivity.
Qed.

Lemma find_all_files_trailing_slash_witness :
  find_all_files World.fs (u "plain/") = find_all_files World.fs (u "plain").
Proof.
  apply (@find_all_files_trailing_slash World.fs (u "plain")); reflexivity.
Defined.

(** ** [debug] *)

Lemma strings_of_strings (strings : list str) (i : nat) :
  strings_of i (map PStr strings) = Ok strings.
Proof.
  revert i; induction strings as [|s l IH]; intros i; simpl;
    [reflexivity|].
  rewrite IH. reflexivity.
Qed.

Lemma strings_of_other (pre : list str) (x : pyobj) (post : list pyobj)
  (i : nat) :
  (forall s, x <> PStr s) ->
  strings_of i (map PStr pre ++ x :: post)
  = Raise (join_type_error (i + length pre) x).
Proof.
  intros Hx. revert i; induction pre as [|s pre IH]; intros i; simpl.
  - rewrite Nat.add_0_r. destruct x; try reflexivity.
    exfalso. apply (Hx s). reflexivity.
  - rewrite IH. rewrite <- plus_n_Sm. reflexivity.
Qed.

(** X19. With the debug output on, [debug] on what [format_list] returns
    raises nothing of its own and prints one message: it writes the
    message to the standard output, for a record its fields with [", "]
    between them, and then the end of the line, and what it raises is
    what a write raises; after a write of the message that raised,
    nothing more is written.  On a list with an item that is no string,
    it raises the [TypeError] of [join], which names the first such item,
    and writes nothing; with the debug output off, the same call writes
    nothing and does not raise. *)
Theorem debug_record (repr : pyobj -> str) (console : Type)
  (write : str -> console -> console * result unit)
  (upper_nonascii : codepoint -> str) (cfg : Config) (now : str)
  (stdout : console) :
  debug cfg = true ->
  (forall input header,
      exists text,
        debug_ repr write cfg now
          (record_value (format_list upper_nonascii input header)) stdout
        = match write (u "DEBUG: " ++ now ++ u ": " ++ text) stdout with
          | (stdout', Ok _) => write [Csv.LF] stdout'
          | (stdout', Raise e) => (stdout', Raise e)
          end
        /\ (forall fields,
               format_list upper_nonascii input header = Some fields ->
               text = join_str (u ", ") fields)
        /\ (format_list upper_nonascii input header = None ->
            text = u "None"))
  /\ (forall pre x post,
         (forall s, x <> PStr s) ->
         debug_ repr write cfg now (PList (map PStr pre ++ x :: post)) stdout
         = (stdout, Raise (join_type_error (length pre) x))
         /\ debug_ repr write
              {| verbose := verbose cfg; debug := false;
                 column_separator := column_separator cfg;
                 quote_char := quote_char cfg |}
              now (PList (map PStr pre ++ x :: post)) stdout
            = (stdout, Ok tt)).
Proof.
  intros Hd. split.
  - intros input header. unfold debug_. rewrite Hd.
    destruct (format_list upper_nonascii input header) as [fields|];
      cbn [record_value].
    + exists (join_str (u ", ") fields).
      unfold str_join. rewrite strings_of_strings.
      split; [reflexivity|].
      split; [intros ? H; injection H as <-; reflexivity | discriminate].
    + exists (u "None").
      split; [reflexivity|]. split; [discriminate | reflexivity].
  - intros pre x post Hx. unfold debug_. rewrite Hd. cbn [debug].
    unfold str_join. rewrite (strings_of_other pre post 0 Hx).
    split; reflexivity.
Qed.

Lemma debug_record_witness :
  debug_ (fun _ => []) terminal_write debug_config
    (u "2019-01-01 10:00:00")
    (record_value (format_list (fun c => [c]) (Some example_record) true))
    []
  = (u "DEBUG: 2019-01-01 10:00:00: FULL_NAME, AGE" ++ [Csv.LF], Ok tt)
  /\ debug_ (fun _ => []) ascii_write debug_config
       (u "2019-01-01 10:00:00")
       (record_value (format_list (fun c => [c]) (Some [[233%N]]) false))
       []
     = ([], Raise encode_error)
  /\ debug_ (fun _ => []) terminal_write debug_config
       (u "2019-01-01 10:00:00")
       (PList (map PStr [u "a"] ++ PObj "int" (u "1") :: [])) []
     = ([], Raise (join_type_error 1 (PObj "int" (u "1")))).
Proof.
  split; [|split].
  - destruct (proj1 (@debug_record (fun _ => []) str terminal_write
                       (fun c => [c]) debug_config
                       (u "2019-01-01 10:00:00") [] eq_refl)
                (Some example_record) true) as (text & H & Ht & _).
    rewrite H, (Ht _ eq_refl). reflexivity.
  - destruct (proj1 (@debug_record (fun _ => []) str ascii_write
                       (fun c => [c]) debug_config
                       (u "2019-01-01 10:00:00") [] eq_refl)
                (Some [[233%N]]) false) as (text & H & Ht & _).
    rewrite H, (Ht _ eq_refl). reflexivity.
  - apply (proj2 (@debug_record (fun _ => []) str terminal_write
                    (fun c => [c]) debug_config
                    (u "2019-01-01 10:00:00") [] eq_refl)
             [u "a"] (PObj "int" (u "1")) []).
    discriminate.
Defined.
